(** * study-platform-backend: room routes, health checks and the signalling relay

  A shallow embedding of

  - [src/unnamed/part_001]: the socket.io server with its connection state
    recovery and its handlers ([io.use], [join-room], [webrtc-signal],
    [disconnect]);
  - [src/routes/roomRoutes.js]: [POST /create] and [GET /];
  - [src/server.js], [src/unnamed/part_000], [part_001], [part_002]: the
    four server files, as far as [GET /health], the error handlers and the
    database connection go.

  socket.io, Express, express-rate-limit and Mongoose are libraries: what
  the handlers ask of them is written out here after their behaviour (the
  in-memory adapter's [rooms] and [sids] maps with the room every socket
  has under its own id, a broadcast that leaves out the room of the sender,
  the sessions and packets kept for recovery, the request counter of the
  limiter, the body parser, [populate]). *)

From Stdlib Require Import ZArith QArith Bool Ascii String.
From stdpp Require Import gmap strings list fin_maps fin_sets pretty.

Set Warnings "-register-all,-clear-no-such-hyp,-notation-for-abbreviation".

Local Open Scope string_scope.
Local Open Scope list_scope.
Local Open Scope Z_scope.

(** ** JavaScript values *)

Module Js.

(** What [JSON.parse] and the handlers produce. A number is kept as a
    rational: only its being zero matters below. *)
Inductive value :=
| Undefined
| Null
| Bool (b : bool)
| Num (q : Q)
| Str (s : string)
| Arr (items : list value)
| Obj (fields : list (string * value)).

(** [!v] is [negb (truthy v)]: the falsy values are [undefined], [null],
    [false], [0] and the empty string. *)
Definition truthy (v : value) : bool :=
  match v with
  | Undefined | Null => false
  | Bool b => b
  | Num q => negb (Qeq_bool q 0)
  | Str s => negb (String.eqb s "")
  | Arr _ | Obj _ => true
  end.

(** Property read [o.k] on a parsed object: [undefined] when absent, the
    first binding otherwise. *)
Fixpoint get (k : string) (fields : list (string * value)) : value :=
  match fields with
  | [] => Undefined
  | (k', v) :: rest => if String.eqb k k' then v else get k rest
  end.

Definition has (k : string) (fields : list (string * value)) : bool :=
  existsb (fun kv => String.eqb k (fst kv)) fields.

End Js.

(** ** The signalling relay of [src/unnamed/part_001] *)

Module Relay.

(** *** The in-memory adapter of socket.io

    [rooms : Map<Room, Set<SocketId>>] and [sids : Map<SocketId, Set<Room>>].
    Socket ids are kept as numbers; where socket.io uses an id as a room
    name, the name is the decimal text of the number ([own_room]). *)
Record Adapter := {
  rooms : gmap string (gset nat);
  sids : gmap nat (gset string)
}.

Definition members (a : Adapter) (room : string) : gset nat :=
  default ∅ (rooms a !! room).

Definition rooms_of (a : Adapter) (id : nat) : gset string :=
  default ∅ (sids a !! id).

(** [adapter.addAll(id, new Set([room]))], what [socket.join(room)] calls. *)
Definition addAll (id : nat) (room : string) (a : Adapter) : Adapter :=
  {| rooms := <[room := {[id]} ∪ members a room]> (rooms a);
     sids := <[id := {[room]} ∪ rooms_of a id]> (sids a) |}.

(** [adapter._del(room, id)]: drop [id] from the room's set and delete the
    room when the set is left empty. *)
Definition _del (room : string) (id : nat) (a : Adapter) : Adapter :=
  match rooms a !! room with
  | None => a
  | Some _room =>
      let left := _room ∖ {[id]} in
      {| rooms := if decide (left = ∅) then delete room (rooms a)
                  else <[room := left]> (rooms a);
         sids := sids a |}
  end.

(** [adapter.delAll(id)], what a closing socket calls through [leaveAll]. *)
Definition delAll (id : nat) (a : Adapter) : Adapter :=
  match sids a !! id with
  | None => a
  | Some joined =>
      let a' := foldr (fun room acc => _del room id acc) a (elements joined) in
      {| rooms := rooms a'; sids := delete id (sids a') |}
  end.

(** No operation of the adapter leaves a room with an empty set behind. *)
Definition no_empty_room (a : Adapter) : Prop :=
  ∀ room s, rooms a !! room = Some s → s ≠ ∅.

(** The room socket.io puts every socket in on connection: the one named by
    the socket's own id. A client may name it in a ['join-room'] event like
    any other room. *)
Definition own_room (id : nat) : string := pretty id.

(** [computeExceptSids(exceptRooms)]: the sockets of the rooms a broadcast
    leaves out. *)
Definition computeExceptSids (a : Adapter) (exceptRooms : list string) : gset nat :=
  ⋃ (members a <$> exceptRooms).

(** *** Sockets, sessions, packets and what the server sends *)

(** A connected socket. [listeners] are the closures registered for
    ['webrtc-signal'], oldest first, each given by the [roomId] it
    captured. [identity] stands for any property of the socket that would
    hold the authenticated user: the connection's "authenticated identity"
    of the data model. *)
Record Socket := {
  identity : option string;
  listeners : list string
}.

(** A broadcast as the session-aware adapter keeps it for
    [connectionStateRecovery] (lines 30-32): its offset, the room it went to,
    the room it left out and the event with its data. *)
Record StoredPacket := {
  offset : nat;
  to_room : string;
  except_room : string;
  event : string;
  data : Js.value
}.

(** [sessions] holds, under the id of a socket that was dropped, the rooms
    it was in ([persistSession]); [emitted] numbers the packets. *)
Record Server := {
  adapter : Adapter;
  sockets : gmap nat Socket;
  sessions : gmap nat (gset string);
  packets : list StoredPacket;
  emitted : nat
}.

Inductive Error := Unauthenticated.

Inductive Output :=
| Emit (to : nat) (event : string) (payload : Js.value)
| ConnectError (to : nat) (err : Error).

Definition init : Server :=
  {| adapter := {| rooms := ∅; sids := ∅ |}; sockets := ∅;
     sessions := ∅; packets := []; emitted := 0 |}.

(** What a client decodes of a payload: packets travel as JSON, where the
    [undefined] of an event sent without payload is written [null]. *)
Definition wire (payload : Js.value) : Js.value :=
  match payload with
  | Js.Undefined => Js.Null
  | _ => payload
  end.

(** [socket.to(roomId).emit(event, payload)], as the adapter applies it:
    the broadcast goes to the room and leaves out the room named by the
    sender's id; every connected socket of the room that is in no left-out
    room gets the packet once. *)
Definition broadcast (st : Server) (sender : nat) (roomId : string)
    (event : string) (payload : Js.value) : list Output :=
  let except := computeExceptSids (adapter st) [own_room sender] in
  omap (fun id =>
          if decide (id ∈ except) then None
          else match sockets st !! id with
               | Some _ => Some (Emit id event (wire payload))
               | None => None
               end)
       (elements (members (adapter st) roomId)).

(** The session-aware adapter keeps every broadcast event for the sessions
    that may be recovered. *)
Definition store (st : Server) (sender : nat) (roomId : string)
    (event : string) (payload : Js.value) : Server :=
  {| adapter := adapter st;
     sockets := sockets st;
     sessions := sessions st;
     packets := packets st ++
                [{| offset := emitted st; to_room := roomId;
                    except_room := own_room sender;
                    event := event; data := wire payload |}];
     emitted := S (emitted st) |}.

(** [shouldIncludePacket(session.rooms, packet.opts)]. *)
Definition shouldIncludePacket (sessionRooms : gset string) (p : StoredPacket) : bool :=
  bool_decide (to_room p ∈ sessionRooms) &&
  negb (bool_decide (except_room p ∈ sessionRooms)).

(** The packets kept after the one with the given offset; [None] when no
    kept packet has that offset. *)
Fixpoint packets_after (off : nat) (ps : list StoredPacket) : option (list StoredPacket) :=
  match ps with
  | [] => None
  | p :: rest =>
      if decide (offset p = off) then Some rest else packets_after off rest
  end.

(** [adapter.restoreSession(pid, offset)]: the rooms of the session and the
    packets it missed. The private session id is what a client presents; it
    is given here by the id of the socket it belongs to. *)
Definition restoreSession (st : Server) (pid off : nat)
    : option (gset string * list StoredPacket) :=
  match sessions st !! pid with
  | None => None
  | Some sessionRooms =>
      match packets_after off (packets st) with
      | None => None
      | Some later =>
          Some (sessionRooms, List.filter (shouldIncludePacket sessionRooms) later)
      end
  end.

(** The recipient of a packet. *)
Definition addressee (o : Output) : nat :=
  match o with
  | Emit to _ _ => to
  | ConnectError to _ => to
  end.

(** How many packets of [out] are emitted to [d]. *)
Definition deliveries_to (d : nat) (out : list Output) : nat :=
  length (List.filter (fun o => match o with
                           | Emit to _ _ => bool_decide (to = d)
                           | ConnectError _ _ => false
                           end) out).

(** What holds of every state the handlers can produce: the two maps of the
    adapter agree, no room is empty, every member of a room is a connected
    socket, a socket is in every room it has a ['webrtc-signal'] listener
    for and in the room of its own id, and no socket carries an identity. *)
Record wf (st : Server) : Prop := {
  wf_sids : ∀ id room,
    id ∈ members (adapter st) room ↔ room ∈ rooms_of (adapter st) id;
  wf_nonempty : no_empty_room (adapter st);
  wf_connected : ∀ id room,
    id ∈ members (adapter st) room → is_Some (sockets st !! id);
  wf_listeners : ∀ id sock room,
    sockets st !! id = Some sock →
    room ∈ listeners sock → id ∈ members (adapter st) room;
  wf_own_room : ∀ id,
    is_Some (sockets st !! id) → id ∈ members (adapter st) (own_room id);
  wf_identity : ∀ id sock,
    sockets st !! id = Some sock → identity sock = None
}.

(** *** Admission: the [io.use] middleware *)

Fixpoint split_dot (s : string) : list string :=
  match s with
  | EmptyString => [EmptyString]
  | String c rest =>
      if Ascii.eqb c "."%char then EmptyString :: split_dot rest
      else match split_dot rest with
           | [] => [String c EmptyString]
           | seg :: segs => String c seg :: segs
           end
  end.

Fixpoint strip_prefix (p s : string) : option string :=
  match p, s with
  | EmptyString, _ => Some s
  | String a p', String b s' =>
      if Ascii.eqb a b then strip_prefix p' s' else None
  | String _ _, EmptyString => None
  end.

(** The Express request the middleware builds, [{ headers: { authorization } }],
    and the [user] property a verifier sets on it. *)
Record Request := {
  authorization : string;
  user : option string
}.

Section Admission.

(** The two primitives of the token format: the keyed signature of the
    signing input under the server's secret, and the decoding of a payload
    segment into the identity and the expiry time it carries. *)
Variable sign : string → string.
Variable claims_of : string → option (string * Z).

(** Modelled from the spec: the Token Verifier of middleware/authMiddleware.js,
    which is not among the sources. "Stateless, pure function of (token,
    secret, current time). Must reject: missing token, malformed token,
    expired token, signature mismatch." A token is three dot-separated
    segments; it is malformed with any other number of segments or with a
    payload that does not decode. *)
Definition verifyToken (token : string) (now : Z) : option string :=
  match split_dot token with
  | [header; payload; signature] =>
      if String.eqb (sign (String.append header (String.append "." payload))) signature
      then match claims_of payload with
           | Some (who, exp) => if now <? exp then Some who else None
           | None => None
           end
      else None
  | _ => None
  end.

(** Modelled from the spec: [jwtVerify(req, res, next)] of
    middleware/authMiddleware.js, which is not among the sources. It reads the
    bearer token of the [authorization] header, "either produces an identity
    or fails with an Unauthenticated error": on success the identity is set
    on [req] and [next()] is called, on failure [next(err)]. The result is
    the request as left by the call and the argument handed to [next]. *)
Definition jwtVerify (req : Request) (now : Z) : Request * option Error :=
  match strip_prefix "Bearer " (authorization req) with
  | None => (req, Some Unauthenticated)
  | Some token =>
      match verifyToken token now with
      | Some who => ({| authorization := authorization req; user := Some who |}, None)
      | None => (req, Some Unauthenticated)
      end
  end.

(** The template literal [`Bearer ${token}`]: a missing token is rendered
    as the text [undefined]. *)
Definition bearer_header (token : option string) : string :=
  String.append "Bearer " (default "undefined" token).

(** [io.use((socket, next) => { ... })], lines 108-111. The socket is not
    among the arguments of [jwtVerify]: the request is a fresh object and the
    response is [{}]. *)
Definition io_use (token : option string) (now : Z) : Request * option Error :=
  jwtVerify {| authorization := bearer_header token; user := None |} now.

(** The ways a handshake token is invalid, and what a valid one encodes. *)
Inductive invalid (now : Z) : option string → Prop :=
| invalid_missing : invalid now None
| invalid_malformed t :
    length (split_dot t) ≠ 3%nat → invalid now (Some t)
| invalid_payload t h p s :
    split_dot t = [h; p; s] → claims_of p = None → invalid now (Some t)
| invalid_signature t h p s :
    split_dot t = [h; p; s] →
    sign (String.append h (String.append "." p)) ≠ s → invalid now (Some t)
| invalid_expired t h p s who exp :
    split_dot t = [h; p; s] → claims_of p = Some (who, exp) → exp <= now →
    invalid now (Some t).

Definition valid (now : Z) (token : option string) (who : string) : Prop :=
  ∃ t h p s exp,
    token = Some t ∧ split_dot t = [h; p; s] ∧
    sign (String.append h (String.append "." p)) = s ∧
    claims_of p = Some (who, exp) ∧ now < exp.

(** *** The event handlers, lines 113-128 *)

(** What reaches the server. [Connect] is a new connection with its
    handshake token; [Recover] a reconnection whose handshake presents,
    beside a token, the session of socket [id] and the offset of the last
    packet it received;
    [Disconnect id recoverable] the close of a socket, [recoverable] when
    the transport was lost rather than closed on purpose; [Expire] and
    [Cleanup] the timer that forgets a session and the oldest packets once
    they are older than [maxDisconnectionDuration]. The [roomId] of a
    ['join-room'] event is a channel name, a string; the [signal] of a
    ['webrtc-signal'] event is any JSON value, [undefined] when the event
    has no payload. *)
Inductive Event :=
| Connect (id : nat) (token : option string) (now : Z)
| Recover (id : nat) (off : nat) (token : option string)
| JoinRoom (id : nat) (roomId : string)
| WebrtcSignal (id : nat) (signal : Js.value)
| Disconnect (id : nat) (recoverable : bool)
| Expire (id : nat)
| Cleanup (n : nat).

(** A socket that passed the middleware joins the room of its own id, is
    registered, and the ['connection'] listener runs: it registers the
    ['join-room'] and ['disconnect'] listeners, and no ['webrtc-signal']
    listener yet. *)
Definition on_connection (st : Server) (id : nat) : Server :=
  {| adapter := addAll id (own_room id) (adapter st);
     sockets := <[id := {| identity := None; listeners := [] |}]> (sockets st);
     sessions := sessions st;
     packets := packets st;
     emitted := emitted st |}.

(** A recovered socket: a new socket object under the id of the session,
    put back in the session's rooms and in the room of its id, without
    running the middleware ([skipMiddlewares] is on by default); it is sent
    the packets it missed, and the ['connection'] listener runs on it as on
    any socket. *)
Definition on_recover (st : Server) (id : nat) (sessionRooms : gset string)
    (missed : list StoredPacket) : Server * list Output :=
  ({| adapter := addAll id (own_room id)
                   (foldr (fun room acc => addAll id room acc) (adapter st)
                          (elements sessionRooms));
      sockets := <[id := {| identity := None; listeners := [] |}]> (sockets st);
      sessions := sessions st;
      packets := packets st;
      emitted := emitted st |},
   map (fun p => Emit id (event p) (data p)) missed).

(** [socket.on('join-room', (roomId) => { socket.join(roomId); ...;
    socket.on('webrtc-signal', ...) })]. *)
Definition on_join_room (st : Server) (id : nat) (sock : Socket) (roomId : string) : Server :=
  {| adapter := addAll id roomId (adapter st);
     sockets := <[id := {| identity := identity sock;
                           listeners := listeners sock ++ [roomId] |}]> (sockets st);
     sessions := sessions st;
     packets := packets st;
     emitted := emitted st |}.

(** One listener: [(signal) => socket.to(roomId).emit('webrtc-signal', signal)]. *)
Definition relay (st : Server) (id : nat) (roomId : string) (signal : Js.value)
    : Server * list Output :=
  (store st id roomId "webrtc-signal" signal,
   broadcast st id roomId "webrtc-signal" signal).

(** A ['webrtc-signal'] event runs every registered listener, oldest first. *)
Fixpoint run_listeners (st : Server) (id : nat) (rooms : list string)
    (signal : Js.value) : Server * list Output :=
  match rooms with
  | [] => (st, [])
  | roomId :: rest =>
      let '(st1, out1) := relay st id roomId signal in
      let '(st2, out2) := run_listeners st1 id rest signal in
      (st2, out1 ++ out2)
  end.

Definition on_webrtc_signal (st : Server) (id : nat) (sock : Socket)
    (signal : Js.value) : Server * list Output :=
  run_listeners st id (listeners sock) signal.

(** A closing socket: its rooms are kept as a session when the close is
    recoverable, then it leaves all its rooms and is forgotten; the
    ['disconnect'] listener only logs. *)
Definition on_disconnect (st : Server) (id : nat) (recoverable : bool) : Server :=
  {| adapter := delAll id (adapter st);
     sockets := delete id (sockets st);
     sessions := if recoverable
                 then <[id := rooms_of (adapter st) id]> (sessions st)
                 else sessions st;
     packets := packets st;
     emitted := emitted st |}.

(** One event of the single event loop. Socket ids are drawn fresh for every
    new connection, so a [Connect] under an id in use does not happen and is
    ignored; a session is presented by the client whose connection is gone,
    so a [Recover] under an id in use is ignored too, and one that names no
    session or no kept packet restores nothing (such a client gets a new
    connection, which is a [Connect]); an event of a socket that is not
    connected reaches no listener. *)
Definition step (st : Server) (e : Event) : Server * list Output :=
  match e with
  | Connect id token now =>
      match sockets st !! id with
      | Some _ => (st, [])
      | None =>
          match snd (io_use token now) with
          | Some err => (st, [ConnectError id err])
          | None => (on_connection st id, [])
          end
      end
  | Recover id off _ =>
      match sockets st !! id with
      | Some _ => (st, [])
      | None =>
          match restoreSession st id off with
          | Some (sessionRooms, missed) => on_recover st id sessionRooms missed
          | None => (st, [])
          end
      end
  | JoinRoom id roomId =>
      match sockets st !! id with
      | Some sock => (on_join_room st id sock roomId, [])
      | None => (st, [])
      end
  | WebrtcSignal id signal =>
      match sockets st !! id with
      | Some sock => on_webrtc_signal st id sock signal
      | None => (st, [])
      end
  | Disconnect id recoverable =>
      match sockets st !! id with
      | Some _ => (on_disconnect st id recoverable, [])
      | None => (st, [])
      end
  | Expire id =>
      ({| adapter := adapter st; sockets := sockets st;
          sessions := delete id (sessions st);
          packets := packets st; emitted := emitted st |}, [])
  | Cleanup n =>
      ({| adapter := adapter st; sockets := sockets st;
          sessions := sessions st;
          packets := drop n (packets st); emitted := emitted st |}, [])
  end.

Fixpoint run (st : Server) (es : list Event) : Server * list Output :=
  match es with
  | [] => (st, [])
  | e :: es' =>
      let '(st1, out1) := step st e in
      let '(st2, out2) := run st1 es' in
      (st2, out1 ++ out2)
  end.

Inductive reachable : Server → Prop :=
| reachable_init : reachable init
| reachable_step st e : reachable st → reachable (fst (step st e)).

(** The rooms of the ['join-room'] events socket [id] sends in [es], in
    order and with repeats. *)
Definition joins_by (id : nat) (es : list Event) : list string :=
  omap (fun e => match e with
                 | JoinRoom i roomId => if decide (i = id) then Some roomId else None
                 | _ => None
                 end) es.

(** Whether socket [id] stays connected throughout [es]. *)
Definition stays (id : nat) (es : list Event) : bool :=
  forallb (fun e => match e with
                    | Disconnect i _ => negb (bool_decide (i = id))
                    | _ => true
                    end) es.

End Admission.

(** A small token scheme to run the handlers on: the signature of every
    signing input is [sig], and the payload [alice] names [alice] until time
    100. *)
Definition demo_sign (input : string) : string := "sig".

Definition demo_claims (payload : string) : option (string * Z) :=
  if String.eqb payload "alice" then Some ("alice", 100) else None.

Definition demo_token : option string := Some "h.alice.sig".

Definition offer : Js.value :=
  Js.Obj [("type", Js.Str "offer"); ("sdp", Js.Str "v=0")].

(** Socket 2 is in [room42]; socket 1 arrives next and joins [room42] and
    then [lobby]. *)
Definition before_1 : list Event :=
  [Connect 2 demo_token 0; JoinRoom 2 "room42"].

Definition joins_1 : list Event :=
  [JoinRoom 1 "room42"; JoinRoom 1 "lobby"].

(** Socket 1 joins [room42] and leaves; socket 2 joins it afterwards. *)
Definition left_alone : list Event :=
  [Connect 1 demo_token 0; JoinRoom 1 "room42"; Disconnect 1 false;
   Connect 2 demo_token 0; JoinRoom 2 "room42"].

(** Sockets 1 and 2 are connected and socket 2 joins the room named by the
    id of socket 1. *)
Definition into_own_room : list Event :=
  [Connect 1 demo_token 0; Connect 2 demo_token 0; JoinRoom 2 "1"].

(** Sockets 1 and 2 are in [room42]; socket 2 sends a signal, then socket 1
    loses its connection. *)
Definition dropped_1 : list Event :=
  [Connect 1 demo_token 0; JoinRoom 1 "room42";
   Connect 2 demo_token 0; JoinRoom 2 "room42";
   WebrtcSignal 2 offer; Disconnect 1 true].

Definition demo_step := step demo_sign demo_claims.
Definition demo_run := run demo_sign demo_claims.

End Relay.

(** ** The room routes of [src/routes/roomRoutes.js] *)

Module Rooms.

(** [req.user], as the authentication middleware leaves it. *)
Record AuthUser := { userId : string }.

(** What the two handlers read of a request: the parsed body ([None] when no
    body parser has set [req.body]) and [req.user]. *)
Record Request := {
  body : option (list (string * Js.value));
  user : option AuthUser
}.

(** Modelled from the spec: the Room model of models/Room.js, which is not
    among the sources. A room document keeps the three fields the handler
    passes to [new Room({ name, createdBy, members })]: "room metadata and
    membership". What the schema makes of a name that is not a string is
    not known; a document it refuses is a [save] that rejects. *)
Record Room := {
  name : Js.value;
  createdBy : string;
  members : list string
}.

(** A user document as [populate(path, "username")] selects it. *)
Record UserDoc := { _id : string; username : string }.

Record PopulatedRoom := {
  p_name : Js.value;
  p_createdBy : option UserDoc;
  p_members : list UserDoc
}.

(** The document store: the rooms collection in insertion order and the
    users collection, keyed by id. *)
Record Db := {
  rooms : list Room;
  users : gmap string string
}.

Inductive Body :=
| ErrorBody (error : string)
| RoomBody (room : Room)
| RoomsBody (found : list PopulatedRoom).

Record Response := { status : nat; json : Body }.

(** [newRoom.save()]: the document joins the collection, or the promise
    rejects and the collection is as before. [ok] tells which. *)
Definition save (ok : bool) (db : Db) (room : Room) : option Db :=
  if ok then Some {| rooms := rooms db ++ [room]; users := users db |} else None.

(** [router.post("/create", authMiddleware, async (req, res) => ...)], lines
    7-23, once [authMiddleware] has called [next()]. Reading a property of
    [undefined] throws inside the [try], which answers 500. *)
Definition post_create (ok : bool) (db : Db) (req : Request) : Db * Response :=
  match body req with
  | None => (db, {| status := 500; json := ErrorBody "Server error" |})
  | Some fields =>
      let name := Js.get "name" fields in
      if negb (Js.truthy name)
      then (db, {| status := 400; json := ErrorBody "Room name is required" |})
      else
        match user req with
        | None => (db, {| status := 500; json := ErrorBody "Server error" |})
        | Some u =>
            let newRoom :=
              {| name := name; createdBy := userId u; members := [userId u] |} in
            match save ok db newRoom with
            | Some db' => (db', {| status := 201; json := RoomBody newRoom |})
            | None => (db, {| status := 500; json := ErrorBody "Server error" |})
            end
        end
  end.

(** [populate]: a reference is replaced by the user document it names; a
    reference to no document becomes [null] in a single field and is dropped
    from an array. *)
Definition populate_ref (db : Db) (id : string) : option UserDoc :=
  (fun n => {| _id := id; username := n |}) <$> users db !! id.

Definition populate (db : Db) (room : Room) : PopulatedRoom :=
  {| p_name := name room;
     p_createdBy := populate_ref db (createdBy room);
     p_members := omap (populate_ref db) (members room) |}.

(** [router.get("/", async (req, res) => ...)], lines 25-34: [Room.find()]
    with both populates, answered with [res.json], or 500 when the query
    rejects. *)
Definition get_rooms (ok : bool) (db : Db) : Response :=
  if ok then {| status := 200; json := RoomsBody (map (populate db) (rooms db)) |}
  else {| status := 500; json := ErrorBody "Server error" |}.

(** The store after a [POST /create] request; [GET /] leaves it as it is. *)
Definition serve_create (db : Db) (rq : bool * Request) : Db :=
  fst (post_create (fst rq) db (snd rq)).

End Rooms.

(** ** [GET /health] and the error handlers of the four server files *)

Module Health.

Inductive ServerFile := server_js | part_000 | part_001 | part_002.

(** What the handlers read of the process: [new Date().toISOString()] and
    [process.uptime()]. *)
Record Env := { now_iso : string; uptime : Q }.

(** [process.env.NODE_ENV]. *)
Record ProcessEnv := { NODE_ENV : option string }.

(** [process.env.NODE_ENV === 'development']. *)
Definition development (penv : ProcessEnv) : bool :=
  match NODE_ENV penv with
  | Some v => String.eqb v "development"
  | None => false
  end.

(** What the error handlers, and Express after them, read of the error they
    are given: [err.message], [err.stack], [err.status] and
    [err.statusCode], [None] where the error has no such number. *)
Record JsError := {
  message : string;
  stack : option string;
  err_status : option nat;
  statusCode : option nat
}.

(** A [GET /health] request. [hits] is the number of requests the limiter
    has already counted for this client in the running window,
    [originalUrl] is [req.originalUrl], and [body_error] is the error
    [express.json] hands to [next] for the body sent with the request
    (JSON that does not parse, a body over the limit, an unsupported
    encoding), [None] when the parser accepts the body or there is none to
    parse. *)
Record Request := {
  hits : nat;
  originalUrl : string;
  body_error : option JsError
}.

(** A response body: what [res.json] was given, a text given to the
    limiter as its [message], whatever the library answers on its own
    (Express's page for an unmatched route or an unhandled error, the
    limiter's default message), or no body at all. *)
Inductive Body :=
| Json (v : Js.value)
| Text (s : string)
| LibraryDefault
| NoBody.

(** The status and the body a request is answered with. *)
Record Response := { status : nat; body : Body }.

(** [app.use(limiter)]: [max] of the limiter mounted on every route. Neither
    [server.js] nor [part_001] mounts one on [/health]. *)
Definition limiter_max (f : ServerFile) : option nat :=
  match f with
  | part_000 => Some 1000%nat
  | part_002 => Some 100%nat
  | server_js | part_001 => None
  end.

(** The [message] option of the limiter; [part_002] gives none. *)
Definition limiter_message (f : ServerFile) : Body :=
  match f with
  | part_000 => Text "Too many requests, please try again later"
  | _ => LibraryDefault
  end.

(** The limiter counts the request and answers 429 once the count is above
    [max]. *)
Definition limited (f : ServerFile) (req : Request) : bool :=
  match limiter_max f with
  | Some max => (max <? S (hits req))%nat
  | None => false
  end.

(** [app.use(express.json(...))]: [server.js] line 11, [part_000] line 74,
    [part_001] line 96; [part_002] mounts no body parser. *)
Definition parses_body (f : ServerFile) : bool :=
  match f with
  | server_js | part_000 | part_001 => true
  | part_002 => false
  end.

(** [err.statusCode || 500]: a missing status and the status 0 give 500. *)
Definition status_or_500 (err : JsError) : nat :=
  match statusCode err with
  | Some (S n) => S n
  | Some O | None => 500%nat
  end.

Definition stack_value (err : JsError) : Js.value :=
  match stack err with
  | Some text => Js.Str text
  | None => Js.Undefined
  end.

(** Express's own answer to an error that no handler of the application
    takes, or that a handler throws: the error's [status], else its
    [statusCode], when that is a number from 400 to 599, else 500, with the
    library's page. *)
Definition own_status (code : option nat) : option nat :=
  match code with
  | Some s => if (400 <=? s)%nat && (s <? 600)%nat then Some s else None
  | None => None
  end.

Definition final_handler (err : JsError) : Response :=
  {| status := match own_status (err_status err) with
               | Some s => s
               | None => default 500%nat (own_status (statusCode err))
               end;
     body := LibraryDefault |}.

(** The statuses that are sent without a body, whatever [res.json] was
    given: the informational ones, 204, 205 and 304. *)
Definition bodiless (code : nat) : bool :=
  (code <? 200)%nat || (code =? 204)%nat || (code =? 205)%nat || (code =? 304)%nat.

(** [res.status(code).json(obj)]: a [code] outside 100..999 is refused with
    a [RangeError], thrown in the handler, and Express answers that error
    itself: 500 with its page. *)
Definition respond (code : nat) (obj : Js.value) : Response :=
  if (100 <=? code)%nat && (code <=? 999)%nat
  then {| status := code; body := if bodiless code then NoBody else Json obj |}
  else {| status := 500; body := LibraryDefault |}.

(** The error-handling middleware [(err, req, res, next) => ...] of each
    file: [server.js] lines 27-30, [part_000] lines 99-109, [part_002] lines
    47-54; [part_001] has none. [now] is [new Date().toISOString()] and
    [url] is [req.originalUrl]. *)
Definition error_handler (f : ServerFile) (penv : ProcessEnv)
    (now url : string) (err : JsError) : option Response :=
  match f with
  | server_js =>
      Some (respond 500 (Js.Obj [("error", Js.Str "Something went wrong!")]))
  | part_000 =>
      let errorResponse :=
        [("timestamp", Js.Str now);
         ("path", Js.Str url);
         ("message", Js.Str (if development penv then message err
                             else "Something went wrong"))]
        ++ (if development penv then [("stack", stack_value err)] else []) in
      Some (respond (status_or_500 err) (Js.Obj errorResponse))
  | part_002 =>
      Some (respond 500
              (Js.Obj [("error",
                        Js.Str (if development penv then message err
                                else "Internal Server Error"))]))
  | part_001 => None
  end.

(** [next(err)]: the error handler of the file when it has one, Express's
    own otherwise. *)
Definition on_error (f : ServerFile) (penv : ProcessEnv)
    (now url : string) (err : JsError) : Response :=
  default (final_handler err) (error_handler f penv now url err).

(** The object handed to [res.json] by [app.get("/health", ...)], where the
    file has that route: [part_000] lines 86-90, [part_002] line 44. *)
Definition health_route (f : ServerFile) (env : Env) : option Js.value :=
  match f with
  | part_000 =>
      Some (Js.Obj [("status", Js.Str "ok");
                    ("timestamp", Js.Str (now_iso env));
                    ("uptime", Js.Num (uptime env))])
  | part_002 => Some (Js.Obj [("status", Js.Str "ok")])
  | server_js | part_001 => None
  end.

(** The answer to a request that reached the end of the stack: [part_000]
    mounts a handler for it (lines 95-97), the other files leave it to
    Express. *)
Definition not_found (f : ServerFile) : Response :=
  match f with
  | part_000 =>
      {| status := 404;
         body := Json (Js.Obj [("error", Js.Str "Endpoint not found")]) |}
  | server_js | part_001 | part_002 =>
      {| status := 404; body := LibraryDefault |}
  end.

(** A [GET /health] request through the middleware of file [f], in the
    order the file mounts it: the limiter where there is one, the body
    parser where there is one, whose error goes to the error handling,
    then the routes. [helmet], [cors], [compression] and [morgan] pass a
    [GET] request on, and the routers mounted under [/api] do not match the
    path. *)
Definition get_health (f : ServerFile) (penv : ProcessEnv) (env : Env)
    (req : Request) : Response :=
  if limited f req
  then {| status := 429; body := limiter_message f |}
  else
    match (if parses_body f then body_error req else None) with
    | Some err => on_error f penv (now_iso env) (originalUrl req) err
    | None =>
        match health_route f env with
        | Some obj => {| status := 200; body := Json obj |}
        | None => not_found f
        end
    end.

Definition has_field (k : string) (b : Body) : bool :=
  match b with
  | Json (Js.Obj fields) => Js.has k fields
  | _ => false
  end.

End Health.

(** ** More of the relay: the registry over a connection's lifetime *)

Module Registry.
Import Relay.

(** Every entry of [sids] is a non-empty set: [addAll] creates an entry with
    the room it adds and [delAll] deletes the entry it empties. *)
Definition sids_nonempty (a : Adapter) : Prop :=
  ∀ id s, sids a !! id = Some s → s ≠ ∅.



End Registry.

(** ** The room routes behind the server of [src/unnamed/part_002] *)

Module RoomsRun.
Import Rooms.

(** Modelled from the spec: the authentication middleware of
    middleware/authMiddleware.js, which is not among the sources. It either
    refuses the request itself ("401 unauthenticated") or calls [next()],
    with what it left in [req.user]. *)
Inductive AuthResult :=
| Refused
| Passed (u : option AuthUser).

Inductive Outcome :=
| TooManyRequests
| Unauthenticated
| Answered (resp : Response).

(** [POST /api/rooms/create] through [src/unnamed/part_002]: [helmet],
    [cors], the limiter, then the router, whose route runs [authMiddleware]
    before the handler. The file mounts no body parser, so [req.body] is
    [undefined] when the handler runs, whatever the client [sent]. *)
Definition post_create_part_002 (ok : bool) (db : Db)
    (req : Health.Request) (sent : option (list (string * Js.value)))
    (auth : AuthResult) : Db * Outcome :=
  if Health.limited Health.part_002 req then (db, TooManyRequests)
  else
    match auth with
    | Refused => (db, Unauthenticated)
    | Passed u =>
        let '(db', resp) := post_create ok db {| body := None; user := u |} in
        (db', Answered resp)
    end.

End RoomsRun.

(** ** More of the server files: the database connection and the limiter *)

Module Servers.
Import Health.

(** What connecting to the database does: a call of [mongoose.connect] and,
    where the file retries, a timer that calls [connectWithRetry] again. *)
Inductive Effect :=
| MongooseConnect
| SetTimeout (ms : nat).

(** [server.js] connects once (lines 15-17); the other files wrap the call in
    [connectWithRetry], whose [catch] sets a timer of 5000 ms. *)
Definition retries (f : ServerFile) : bool :=
  match f with
  | server_js => false
  | part_000 | part_001 | part_002 => true
  end.

(** The connection at start-up, given how the successive attempts end
    ([true]: the promise resolves); with no outcome left the attempt made is
    still pending. *)
Fixpoint connectWithRetry (f : ServerFile) (outcomes : list bool) : list Effect :=
  match outcomes with
  | [] => [MongooseConnect]
  | true :: _ => [MongooseConnect]
  | false :: rest =>
      if retries f
      then MongooseConnect :: SetTimeout 5000 :: connectWithRetry f rest
      else [MongooseConnect]
  end.

Definition attempts (effects : list Effect) : nat :=
  length (List.filter (fun e => match e with
                                | MongooseConnect => true
                                | SetTimeout _ => false
                                end) effects).

Definition waited (effects : list Effect) : nat :=
  list_sum (omap (fun e => match e with
                           | SetTimeout ms => Some ms
                           | MongooseConnect => None
                           end) effects).

(** The statuses of the first [n] [GET /health] requests of one client in
    one window of the limiter: the limiter has counted [i] requests when
    request [i] arrives; [envs i] is the clock and uptime at that time and
    [bodies i] what the body parser makes of the body sent with it. *)
Definition health_statuses (f : ServerFile) (penv : ProcessEnv)
    (envs : nat → Env) (bodies : nat → option JsError) (n : nat) : list nat :=
  map (fun i => status (get_health f penv (envs i)
                          {| hits := i; originalUrl := "/health";
                             body_error := bodies i |}))
      (seq 0 n).

End Servers.

(** * Properties of the signalling relay *)

Module RelayFacts.
Import Relay.

(** *** What the adapter's operations do to membership *)

Lemma members_addAll id room a r :
  members (addAll id room a) r =
  if decide (r = room) then {[id]} ∪ members a r else members a r.
Proof.
  unfold members at 1. simpl. case_decide as Hr.
  - subst r. by rewrite lookup_insert_eq.
  - by rewrite lookup_insert_ne.
Qed.

Lemma rooms_of_addAll id room a i :
  rooms_of (addAll id room a) i =
  if decide (i = id) then {[room]} ∪ rooms_of a i else rooms_of a i.
Proof.
  unfold rooms_of at 1. simpl. case_decide as Hi.
  - subst i. by rewrite lookup_insert_eq.
  - by rewrite lookup_insert_ne.
Qed.

Lemma members__del room id a r :
  members (_del room id a) r =
  if decide (r = room) then members a r ∖ {[id]} else members a r.
Proof.
  unfold _del, members. destruct (rooms a !! room) as [s|] eqn:Hs; simpl.
  - destruct (decide (r = room)) as [->|Hr].
    + rewrite Hs. simpl. case_decide as He.
      * rewrite lookup_delete_eq. simpl. by rewrite He.
      * by rewrite lookup_insert_eq.
    + case_decide; [by rewrite lookup_delete_ne | by rewrite lookup_insert_ne].
  - destruct (decide (r = room)) as [->|Hr]; [|done]. rewrite Hs. simpl. set_solver.
Qed.

Lemma sids__del room id a : sids (_del room id a) = sids a.
Proof. unfold _del. by destruct (rooms a !! room). Qed.

Lemma members_foldr__del id l a r :
  members (foldr (fun room acc => _del room id acc) a l) r =
  if decide (r ∈ l) then members a r ∖ {[id]} else members a r.
Proof.
  induction l as [|x l IH]; simpl.
  - done.
  - rewrite members__del, IH. repeat case_decide; set_solver.
Qed.

Lemma sids_foldr__del id l a :
  sids (foldr (fun room acc => _del room id acc) a l) = sids a.
Proof. induction l as [|x l IH]; simpl; [done|]. by rewrite sids__del. Qed.

Lemma members_delAll id a r :
  members (delAll id a) r =
  if decide (r ∈ rooms_of a id) then members a r ∖ {[id]} else members a r.
Proof.
  unfold delAll, rooms_of. destruct (sids a !! id) as [joined|] eqn:Hj; simpl.
  - transitivity
      (members (foldr (λ room acc, _del room id acc) a (elements joined)) r);
      [done|].
    rewrite members_foldr__del. repeat case_decide; set_solver.
  - by rewrite decide_False by set_solver.
Qed.

Lemma rooms_of_delAll id a i :
  rooms_of (delAll id a) i = if decide (i = id) then ∅ else rooms_of a i.
Proof.
  unfold delAll, rooms_of. destruct (sids a !! id) as [joined|] eqn:Hj; simpl.
  - rewrite sids_foldr__del. case_decide as Hi.
    + subst i. by rewrite lookup_delete_eq.
    + by rewrite lookup_delete_ne.
  - case_decide as Hi; [|done]. subst i. by rewrite Hj.
Qed.

Lemma no_empty_room_addAll id room a :
  no_empty_room a → no_empty_room (addAll id room a).
Proof.
  intros Ha r s. simpl. destruct (decide (r = room)) as [->|Hne].
  - rewrite lookup_insert_eq. intros [= <-]. set_solver.
  - rewrite lookup_insert_ne by done. apply Ha.
Qed.

Lemma no_empty_room__del room id a :
  no_empty_room a → no_empty_room (_del room id a).
Proof.
  intros Ha r s. unfold _del. destruct (rooms a !! room) as [s0|] eqn:Hs; simpl.
  - case_decide as He.
    + destruct (decide (r = room)) as [->|Hne].
      * by rewrite lookup_delete_eq.
      * rewrite lookup_delete_ne by done. apply Ha.
    + destruct (decide (r = room)) as [->|Hne].
      * rewrite lookup_insert_eq. by intros [= <-].
      * rewrite lookup_insert_ne by done. apply Ha.
  - apply Ha.
Qed.

Lemma no_empty_room_delAll id a :
  no_empty_room a → no_empty_room (delAll id a).
Proof.
  intros Ha. unfold delAll. destruct (sids a !! id) as [joined|]; [|done].
  assert (no_empty_room (foldr (λ room acc, _del room id acc) a (elements joined))) as H.
  { induction (elements joined) as [|x l IH]; simpl; [done|].
    by apply no_empty_room__del. }
  exact H.
Qed.

Lemma members_foldr_addAll id l a r :
  members (foldr (fun room acc => addAll id room acc) a l) r =
  if decide (r ∈ l) then {[id]} ∪ members a r else members a r.
Proof.
  induction l as [|x l IH]; simpl; [done|].
  rewrite members_addAll, IH. repeat case_decide; set_solver.
Qed.

Lemma rooms_of_foldr_addAll id l a i :
  rooms_of (foldr (fun room acc => addAll id room acc) a l) i =
  if decide (i = id) then list_to_set l ∪ rooms_of a i else rooms_of a i.
Proof.
  induction l as [|x l IH]; simpl.
  - case_decide; set_solver.
  - rewrite rooms_of_addAll, IH. repeat case_decide; set_solver.
Qed.

Lemma no_empty_room_foldr_addAll id l a :
  no_empty_room a → no_empty_room (foldr (fun room acc => addAll id room acc) a l).
Proof.
  intros Ha. induction l as [|x l IH]; simpl; [done|].
  by apply no_empty_room_addAll.
Qed.

Lemma computeExceptSids_own a id :
  computeExceptSids a [own_room id] = members a (own_room id).
Proof. unfold computeExceptSids. simpl. set_solver. Qed.

(** *** The listeners leave the registry alone *)

Lemma broadcast_same st st' sender roomId ev S :
  adapter st' = adapter st → sockets st' = sockets st →
  broadcast st' sender roomId ev S = broadcast st sender roomId ev S.
Proof. intros Ha Hs. unfold broadcast. by rewrite Ha, Hs. Qed.

Lemma run_listeners_registry st id ls S :
  adapter (fst (run_listeners st id ls S)) = adapter st ∧
  sockets (fst (run_listeners st id ls S)) = sockets st ∧
  sessions (fst (run_listeners st id ls S)) = sessions st.
Proof.
  revert st. induction ls as [|r ls IH]; intros st; simpl; [done|].
  specialize (IH (store st id r "webrtc-signal" S)).
  destruct (run_listeners (store st id r "webrtc-signal" S) id ls S) as [st2 out2].
  simpl in *. exact IH.
Qed.

Lemma run_listeners_out st id ls S :
  snd (run_listeners st id ls S) =
  flat_map (fun roomId => broadcast st id roomId "webrtc-signal" S) ls.
Proof.
  revert st. induction ls as [|r ls IH]; intros st; simpl; [done|].
  specialize (IH (store st id r "webrtc-signal" S)).
  destruct (run_listeners (store st id r "webrtc-signal" S) id ls S) as [st2 out2].
  simpl in *. by rewrite IH.
Qed.

Lemma run_listeners_packets st id ls S :
  ∃ kept,
    packets (fst (run_listeners st id ls S)) = packets st ++ kept ∧
    map to_room kept = ls ∧
    ∀ p, p ∈ kept → except_room p = own_room id ∧ data p = wire S.
Proof.
  revert st. induction ls as [|r ls IH]; intros st; simpl.
  - exists []. rewrite app_nil_r. split; [done|]. split; [done|].
    by intros p ?%elem_of_nil.
  - destruct (IH (store st id r "webrtc-signal" S)) as (kept & Hp & Hr & Hk).
    destruct (run_listeners (store st id r "webrtc-signal" S) id ls S) as [st2 out2].
    simpl in *. eexists (_ :: kept). rewrite Hp, <- app_assoc. split; [done|].
    split; [simpl; by rewrite Hr|].
    intros p [->|Hin]%elem_of_cons; [done | by apply Hk].
Qed.

(** *** The invariant *)

Lemma wf_same st st' :
  adapter st' = adapter st → sockets st' = sockets st → wf st → wf st'.
Proof.
  intros Ha Hs [H1 H2 H3 H4 H5 H6].
  split; rewrite ?Ha, ?Hs; done.
Qed.

Lemma wf_init : wf init.
Proof.
  split.
  - intros id room. unfold members, rooms_of. simpl.
    rewrite !lookup_empty. simpl. set_solver.
  - intros room s. simpl. by rewrite lookup_empty.
  - intros id room. unfold members. simpl. rewrite lookup_empty. simpl. set_solver.
  - intros id sock room. simpl. by rewrite lookup_empty.
  - intros id. simpl. rewrite lookup_empty. by intros [? ?].
  - intros id sock. simpl. by rewrite lookup_empty.
Qed.

Lemma wf_not_connected st id room :
  wf st → sockets st !! id = None → id ∉ members (adapter st) room.
Proof.
  intros Hwf Hid Hin. apply (wf_connected st Hwf) in Hin.
  rewrite Hid in Hin. by destruct Hin.
Qed.

(** A socket object put in the registry under [id], joined to [own_room id]
    and to the rooms of [joined], with no listener yet: what a new and a
    recovered connection have in common. *)
Lemma wf_enter st id joined st' :
  wf st → sockets st !! id = None →
  adapter st' = addAll id (own_room id)
                  (foldr (fun room acc => addAll id room acc) (adapter st) joined) →
  sockets st' = <[id := {| identity := None; listeners := [] |}]> (sockets st) →
  wf st'.
Proof.
  intros Hwf Hid Ha Hs. split; rewrite ?Ha, ?Hs.
  - intros i room.
    rewrite members_addAll, rooms_of_addAll, members_foldr_addAll,
      rooms_of_foldr_addAll.
    pose proof (wf_sids st Hwf i room). repeat case_decide; set_solver.
  - apply no_empty_room_addAll, no_empty_room_foldr_addAll, (wf_nonempty st Hwf).
  - intros i room. rewrite members_addAll, members_foldr_addAll. intros Hin.
    destruct (decide (i = id)) as [->|Hne].
    + rewrite lookup_insert_eq. eauto.
    + rewrite lookup_insert_ne by done.
      apply (wf_connected st Hwf i room). repeat case_decide; set_solver.
  - intros i sock room. destruct (decide (i = id)) as [->|Hne].
    + rewrite lookup_insert_eq. intros [= <-]. simpl. by intros ?%elem_of_nil.
    + rewrite lookup_insert_ne by done. intros Hsock Hroom.
      pose proof (wf_listeners st Hwf i sock room Hsock Hroom).
      rewrite members_addAll, members_foldr_addAll.
      repeat case_decide; set_solver.
  - intros i. rewrite members_addAll, members_foldr_addAll.
    destruct (decide (i = id)) as [->|Hne].
    + intros _. rewrite decide_True by done. set_solver.
    + rewrite lookup_insert_ne by done. intros Hconn.
      pose proof (wf_own_room st Hwf i Hconn). repeat case_decide; set_solver.
  - intros i sock. destruct (decide (i = id)) as [->|Hne].
    + rewrite lookup_insert_eq. by intros [= <-].
    + rewrite lookup_insert_ne by done. apply (wf_identity st Hwf).
Qed.

Lemma wf_on_connection st id :
  wf st → sockets st !! id = None → wf (on_connection st id).
Proof. intros Hwf Hid. by apply (wf_enter st id [] _ Hwf Hid). Qed.

Lemma wf_on_recover st id sessionRooms missed :
  wf st → sockets st !! id = None →
  wf (fst (on_recover st id sessionRooms missed)).
Proof.
  intros Hwf Hid. by apply (wf_enter st id (elements sessionRooms) _ Hwf Hid).
Qed.

Lemma wf_on_join_room st id sock roomId :
  wf st → sockets st !! id = Some sock → wf (on_join_room st id sock roomId).
Proof.
  intros Hwf Hid. split; simpl.
  - intros i room. rewrite members_addAll, rooms_of_addAll.
    pose proof (wf_sids st Hwf i room). repeat case_decide; set_solver.
  - apply no_empty_room_addAll, (wf_nonempty st Hwf).
  - intros i room. rewrite members_addAll. intros Hin.
    destruct (decide (i = id)) as [->|Hne].
    + rewrite lookup_insert_eq. eauto.
    + rewrite lookup_insert_ne by done.
      apply (wf_connected st Hwf i room). case_decide; set_solver.
  - intros i sock' room. rewrite members_addAll.
    destruct (decide (i = id)) as [->|Hne].
    + rewrite lookup_insert_eq. intros [= <-]. simpl.
      rewrite elem_of_app, list_elem_of_singleton. intros [Hold| ->].
      * pose proof (wf_listeners st Hwf id sock room Hid Hold).
        case_decide; set_solver.
      * rewrite decide_True by done. set_solver.
    + rewrite lookup_insert_ne by done. intros Hs Hroom.
      pose proof (wf_listeners st Hwf i sock' room Hs Hroom).
      case_decide; set_solver.
  - intros i Hconn. rewrite members_addAll.
    assert (is_Some (sockets st !! i)) as Hold.
    { destruct (decide (i = id)) as [->|Hne]; [eauto|].
      by rewrite lookup_insert_ne in Hconn. }
    pose proof (wf_own_room st Hwf i Hold). case_decide; set_solver.
  - intros i sock'. destruct (decide (i = id)) as [->|Hne].
    + rewrite lookup_insert_eq. intros [= <-]. simpl.
      apply (wf_identity st Hwf id sock Hid).
    + rewrite lookup_insert_ne by done. apply (wf_identity st Hwf).
Qed.

(** With the two maps in agreement, [delAll] takes the socket out of every
    room. *)
Lemma members_delAll_wf st id room :
  wf st → members (delAll id (adapter st)) room = members (adapter st) room ∖ {[id]}.
Proof.
  intros Hwf. rewrite members_delAll. case_decide as Hin; [done|].
  rewrite <- (wf_sids st Hwf) in Hin. set_solver.
Qed.

Lemma wf_on_disconnect st id recoverable :
  wf st → wf (on_disconnect st id recoverable).
Proof.
  intros Hwf. split; simpl.
  - intros i room. rewrite members_delAll_wf, rooms_of_delAll by done.
    pose proof (wf_sids st Hwf i room). case_decide; set_solver.
  - apply no_empty_room_delAll, (wf_nonempty st Hwf).
  - intros i room. rewrite members_delAll_wf by done.
    intros [Hin Hne%not_elem_of_singleton]%elem_of_difference.
    rewrite lookup_delete_ne by done. by apply (wf_connected st Hwf i room).
  - intros i sock room. rewrite members_delAll_wf by done.
    destruct (decide (i = id)) as [->|Hne].
    + by rewrite lookup_delete_eq.
    + rewrite lookup_delete_ne by done. intros Hs Hroom.
      pose proof (wf_listeners st Hwf i sock room Hs Hroom). set_solver.
  - intros i. rewrite members_delAll_wf by done.
    destruct (decide (i = id)) as [->|Hne].
    + rewrite lookup_delete_eq. by intros [? ?].
    + rewrite lookup_delete_ne by done. intros Hconn.
      pose proof (wf_own_room st Hwf i Hconn). set_solver.
  - intros i sock. destruct (decide (i = id)) as [->|Hne].
    + by rewrite lookup_delete_eq.
    + rewrite lookup_delete_ne by done. apply (wf_identity st Hwf).
Qed.

Section Handlers.

Variable sign : string → string.
Variable claims_of : string → option (string * Z).

Local Notation step := (step sign claims_of).
Local Notation run := (run sign claims_of).
Local Notation reachable := (reachable sign claims_of).
Local Notation io_use := (io_use sign claims_of).

Lemma wf_step st e : wf st → wf (fst (step st e)).
Proof.
  intros Hwf.
  destruct e as [id token now|id off token|id roomId|id signal|id recoverable|id|n];
    simpl; try (by apply (wf_same st));
    destruct (sockets st !! id) as [sock|] eqn:Hid; simpl; try done.
  - destruct (snd (io_use token now)); simpl; [done|].
    by apply wf_on_connection.
  - destruct (restoreSession st id off) as [[sessionRooms missed]|]; [|done].
    by apply wf_on_recover.
  - by apply wf_on_join_room.
  - destruct (run_listeners_registry st id (listeners sock) signal) as (Ha & Hs & _).
    by apply (wf_same st).
  - by apply wf_on_disconnect.
Qed.

Lemma reachable_wf st : reachable st → wf st.
Proof.
  induction 1 as [|st e _ IH]; [apply wf_init | by apply wf_step].
Qed.

Lemma reachable_run st es : reachable st → reachable (fst (run st es)).
Proof.
  revert st. induction es as [|e es IH]; intros st Hst; simpl; [done|].
  destruct (step st e) as [st1 out1] eqn:He.
  destruct (run st1 es) as [st2 out2] eqn:Hr. simpl.
  specialize (IH st1). rewrite Hr in IH. apply IH.
  change st1 with (fst (st1, out1)). rewrite <- He. by constructor.
Qed.

(** *** What a broadcast and a signal event emit *)

Lemma elem_of_broadcast st c roomId ev S o :
  o ∈ broadcast st c roomId ev S ↔
  ∃ d, d ∈ members (adapter st) roomId ∧
       (d ∉ members (adapter st) (own_room c)) ∧
       is_Some (sockets st !! d) ∧ o = Emit d ev (wire S).
Proof.
  unfold broadcast. rewrite computeExceptSids_own, list_elem_of_omap. split.
  - intros (d & Hd%elem_of_elements & Ho). exists d.
    case_decide as Hc; [done|].
    destruct (sockets st !! d) eqn:Hs; [|done].
    injection Ho as <-. eauto.
  - intros (d & Hd & Hc & [sock Hs] & ->). exists d. split.
    + by apply elem_of_elements.
    + rewrite decide_False by done. by rewrite Hs.
Qed.

Lemma step_webrtc_signal st c sock S :
  sockets st !! c = Some sock →
  snd (step st (WebrtcSignal c S)) =
    flat_map (fun roomId => snd (relay st c roomId S)) (listeners sock) ∧
  adapter (fst (step st (WebrtcSignal c S))) = adapter st ∧
  sockets (fst (step st (WebrtcSignal c S))) = sockets st ∧
  sessions (fst (step st (WebrtcSignal c S))) = sessions st.
Proof.
  intros Hc. simpl. rewrite Hc. unfold on_webrtc_signal.
  split; [apply run_listeners_out | apply run_listeners_registry].
Qed.

Lemma elem_of_signal_out st c sock S o :
  sockets st !! c = Some sock →
  (o ∈ snd (step st (WebrtcSignal c S)) ↔
   ∃ roomId, roomId ∈ listeners sock ∧
             o ∈ broadcast st c roomId "webrtc-signal" S).
Proof.
  intros Hc. destruct (step_webrtc_signal st c sock S Hc) as [-> _].
  rewrite list_elem_of_In, in_flat_map.
  split; intros (r & Hr & Ho); exists r; split;
    solve [by apply list_elem_of_In].
Qed.

(** C1, as the handlers have it. A connection [c] with a listener for room
    [R] (it has sent a ['join-room'] for [R] since it connected) is a member
    of [R], and when it sends a signal [S], every other current member of
    [R] that has not joined the room named by the id of [c] is sent [S] on
    ['webrtc-signal'] ([null] for an event without payload); every packet
    the event causes carries that payload and goes to a connection other
    than [c]: [c] never receives its own signal. *)
Theorem relay_to_other_members st c sock R S :
  reachable st →
  sockets st !! c = Some sock → R ∈ listeners sock →
  let out := snd (step st (WebrtcSignal c S)) in
  c ∈ members (adapter st) R ∧
  (∀ d, d ∈ members (adapter st) R →
        d ∉ members (adapter st) (own_room c) →
        Emit d "webrtc-signal" (wire S) ∈ out) ∧
  (∀ o, o ∈ out → ∃ d, o = Emit d "webrtc-signal" (wire S) ∧ d ≠ c).
Proof.
  intros Hwf%reachable_wf Hc HR out. subst out.
  assert (c ∈ members (adapter st) (own_room c)) as Hown
    by (apply (wf_own_room st Hwf); eauto).
  split; [by apply (wf_listeners st Hwf c sock)|]. split.
  - intros d Hd Hex. apply (elem_of_signal_out st c sock S _ Hc).
    exists R. split; [done|]. apply elem_of_broadcast. exists d.
    repeat split; try done. by apply (wf_connected st Hwf d R).
  - intros o (r & _ & Ho)%(elem_of_signal_out st c sock S _ Hc).
    apply elem_of_broadcast in Ho as (d & _ & Hex & _ & ->).
    exists d. split; [done|]. by intros ->.
Qed.

(** *** Counting the packets a member receives *)

Lemma deliveries_to_app d out1 out2 :
  deliveries_to d (out1 ++ out2) = (deliveries_to d out1 + deliveries_to d out2)%nat.
Proof. unfold deliveries_to. by rewrite List.filter_app, length_app. Qed.

Lemma deliveries_to_emit d to ev S out :
  deliveries_to d (Emit to ev S :: out) =
  ((if decide (to = d) then 1 else 0) + deliveries_to d out)%nat.
Proof.
  unfold deliveries_to. simpl. destruct (decide (to = d)) as [->|Hne].
  - by rewrite bool_decide_true.
  - by rewrite bool_decide_false.
Qed.

Lemma deliveries_to_omap st (except : gset nat) d ev S (l : list nat) :
  NoDup l → (∀ x, x ∈ l → is_Some (sockets st !! x)) →
  deliveries_to d
    (omap (λ id, if decide (id ∈ except) then None
                 else match sockets st !! id with
                      | Some _ => Some (Emit id ev S)
                      | None => None
                      end) l) =
  if decide (d ∈ l ∧ d ∉ except) then 1%nat else 0%nat.
Proof.
  intros Hnd Hconn. unfold omap.
  induction Hnd as [|x l Hx Hnd IH]; simpl.
  - done.
  - assert (∀ y, y ∈ l → is_Some (sockets st !! y)) as Hconn'
      by (intros y Hy; apply Hconn; by right).
    specialize (IH Hconn').
    destruct (decide (x ∈ except)) as [Hxe|Hxe].
    + rewrite IH. repeat case_decide; set_solver.
    + destruct (Hconn x) as [sock Hs]; [by left|]. rewrite Hs.
      rewrite deliveries_to_emit, IH. repeat case_decide; set_solver.
Qed.

(** One listener sends a member of its room one packet, unless the member
    is left out with the sender. *)
Lemma deliveries_to_broadcast st c d roomId S :
  wf st →
  deliveries_to d (broadcast st c roomId "webrtc-signal" S) =
  if decide (d ∈ members (adapter st) roomId ∧
             d ∉ members (adapter st) (own_room c))
  then 1%nat else 0%nat.
Proof.
  intros Hwf. unfold broadcast.
  rewrite computeExceptSids_own, deliveries_to_omap.
  - repeat case_decide; set_solver.
  - apply NoDup_elements.
  - intros x Hx%elem_of_elements. by apply (wf_connected st Hwf x roomId).
Qed.

Lemma deliveries_to_listeners st c d S ls :
  wf st →
  deliveries_to d
    (flat_map (fun roomId => snd (relay st c roomId S)) ls) =
  if decide (d ∈ members (adapter st) (own_room c)) then 0%nat
  else length (List.filter (λ r, bool_decide (d ∈ members (adapter st) r)) ls).
Proof.
  intros Hwf. induction ls as [|r l IH]; [by case_decide|].
  change (flat_map (fun roomId => snd (relay st c roomId S)) (r :: l))
    with (broadcast st c r "webrtc-signal" S ++
          flat_map (fun roomId => snd (relay st c roomId S)) l).
  rewrite deliveries_to_app, IH, deliveries_to_broadcast by done. simpl.
  destruct (decide (d ∈ members (adapter st) (own_room c))) as [Hex|Hex].
  - rewrite decide_False; [done|]. by intros [_ ?].
  - destruct (decide (d ∈ members (adapter st) r)) as [Hin|Hnin].
    + rewrite decide_True by done. by rewrite bool_decide_true.
    + rewrite decide_False by (by intros [? _]). by rewrite bool_decide_false.
Qed.

(** *** Listeners pile up over the joins of a connection *)

Local Arguments joins_by : simpl never.

Lemma joins_by_cons c e es : joins_by c (e :: es) = joins_by c [e] ++ joins_by c es.
Proof. unfold joins_by. simpl. by destruct e; repeat case_decide. Qed.

Lemma listeners_step st e c sock :
  sockets st !! c = Some sock → stays c [e] = true →
  ∃ sock', sockets (fst (step st e)) !! c = Some sock' ∧
           listeners sock' = listeners sock ++ joins_by c [e].
Proof.
  intros Hc He. unfold joins_by.
  destruct e as [id token now|id off token|id roomId|id signal|id recoverable|id|n];
    simpl; try (exists sock; by rewrite app_nil_r);
    destruct (sockets st !! id) as [s|] eqn:Hid; simpl;
    try (exists sock; by rewrite app_nil_r).
  - destruct (snd (io_use token now)); simpl.
    + exists sock. by rewrite app_nil_r.
    + exists sock. rewrite app_nil_r. split; [|done].
      rewrite lookup_insert_ne; [done|]. intros ->. congruence.
  - destruct (restoreSession st id off) as [[sessionRooms missed]|]; simpl.
    + exists sock. rewrite app_nil_r. split; [|done].
      rewrite lookup_insert_ne; [done|]. intros ->. congruence.
    + exists sock. by rewrite app_nil_r.
  - destruct (decide (id = c)) as [->|Hne].
    + rewrite lookup_insert_eq. eexists. split; [done|]. simpl. congruence.
    + rewrite lookup_insert_ne by done. exists sock. by rewrite app_nil_r.
  - rewrite decide_False by (intros ->; congruence).
    exists sock. by rewrite app_nil_r.
  - unfold on_webrtc_signal.
    destruct (run_listeners_registry st id (listeners s) signal) as (_ & -> & _).
    exists sock. by rewrite app_nil_r.
  - simpl in He. rewrite andb_true_r in He.
    apply negb_true_iff, bool_decide_eq_false in He.
    rewrite lookup_delete_ne by done. exists sock. by rewrite app_nil_r.
Qed.

Lemma listeners_run st es c sock :
  sockets st !! c = Some sock → stays c es = true →
  ∃ sock', sockets (fst (run st es)) !! c = Some sock' ∧
           listeners sock' = listeners sock ++ joins_by c es.
Proof.
  revert st sock. induction es as [|e es IH]; intros st sock Hc Hes; simpl.
  - exists sock. by rewrite app_nil_r.
  - assert (stays c [e] = true ∧ stays c es = true) as [He Hes'].
    { unfold stays in *. simpl in *. apply andb_prop in Hes as [-> ->]. done. }
    destruct (listeners_step st e c sock Hc He) as (sock1 & Hc1 & Hl1).
    destruct (step st e) as [st1 out1] eqn:Hstep. simpl in Hc1.
    destruct (IH st1 sock1 Hc1 Hes') as (sock2 & Hc2 & Hl2).
    destruct (run st1 es) as [st2 out2]. simpl in *.
    exists sock2. split; [done|].
    by rewrite Hl2, Hl1, (joins_by_cons c e es), app_assoc.
Qed.

(** A connection admitted in state [st] that then sends the ['join-room']
    events of [es] and does not close has one listener per such event. *)
Lemma listeners_since_connection st c token now es :
  sockets st !! c = None → snd (io_use token now) = None →
  stays c es = true →
  ∃ sock, sockets (fst (run st (Connect c token now :: es))) !! c = Some sock ∧
          listeners sock = joins_by c es.
Proof.
  intros Hc Hok Hes. simpl. rewrite Hc, Hok.
  destruct (listeners_run (on_connection st c) es c
              {| identity := None; listeners := [] |}) as (sock & Hs & Hl);
    [apply lookup_insert_eq | done |].
  destruct (run (on_connection st c) es) as [st2 out2]. simpl in *.
  by exists sock.
Qed.

(** C3. A connection that has sent [n] ['join-room'] events, for the rooms
    [joins_by c es] (repeats included), has [n] listeners, one per event and
    each for the room of that event; every later ['webrtc-signal'] event runs
    them all, so a member [d] of those rooms is sent the signal once for each
    join of a room [d] is in: joining the same room again duplicates the
    delivery. (The sockets the broadcast leaves out with the sender, those
    in the room named by the sender's id, are sent nothing.) *)
Theorem signal_runs_once_per_join st c token now es :
  reachable st →
  sockets st !! c = None → snd (io_use token now) = None →
  stays c es = true →
  let st' := fst (run st (Connect c token now :: es)) in
  ∃ sock, sockets st' !! c = Some sock ∧
    listeners sock = joins_by c es ∧
    ∀ S,
      snd (step st' (WebrtcSignal c S)) =
        flat_map (λ roomId, snd (relay st' c roomId S)) (joins_by c es) ∧
      ∀ d,
        deliveries_to d (snd (step st' (WebrtcSignal c S))) =
        if decide (d ∈ members (adapter st') (own_room c)) then 0%nat
        else length (List.filter (λ r, bool_decide (d ∈ members (adapter st') r))
                                 (joins_by c es)).
Proof.
  intros Hst Hc Hok Hes st'.
  destruct (listeners_since_connection st c token now es Hc Hok Hes)
    as (sock & Hs & Hl).
  assert (wf st') as Hwf by (by apply reachable_wf, reachable_run).
  exists sock. fold st' in Hs. split; [done|]. split; [done|]. intros S.
  destruct (step_webrtc_signal st' c sock S Hs) as [-> _]. rewrite Hl.
  split; [done|]. intros d. by apply deliveries_to_listeners.
Qed.

(** C2, as the handlers have it. A ['webrtc-signal'] event of a connection
    is relayed to every channel the connection has joined in its lifetime,
    the most recently joined one among them, and to no other channel: the
    packets it causes are exactly the signal sent to the members of the
    rooms of [joins_by c es] that the broadcast does not leave out with the
    sender. *)
Theorem signal_relayed_to_joined_rooms st c token now es S :
  reachable st →
  sockets st !! c = None → snd (io_use token now) = None →
  stays c es = true →
  let st' := fst (run st (Connect c token now :: es)) in
  let out := snd (step st' (WebrtcSignal c S)) in
  (∀ o, o ∈ out ↔
        ∃ roomId d, roomId ∈ joins_by c es ∧ d ∈ members (adapter st') roomId ∧
                    (d ∉ members (adapter st') (own_room c)) ∧
                    o = Emit d "webrtc-signal" (wire S)) ∧
  (∀ latest d, last (joins_by c es) = Some latest →
               d ∈ members (adapter st') latest →
               d ∉ members (adapter st') (own_room c) →
               Emit d "webrtc-signal" (wire S) ∈ out).
Proof.
  intros Hst Hc Hok Hes st' out.
  destruct (listeners_since_connection st c token now es Hc Hok Hes)
    as (sock & Hs & Hl).
  assert (wf st') as Hwf by (by apply reachable_wf, reachable_run).
  fold st' in Hs. subst out.
  assert (∀ o, o ∈ snd (step st' (WebrtcSignal c S)) ↔
            ∃ roomId d, roomId ∈ joins_by c es ∧
                        d ∈ members (adapter st') roomId ∧
                        (d ∉ members (adapter st') (own_room c)) ∧
                        o = Emit d "webrtc-signal" (wire S)) as Hout.
  { intros o. rewrite (elem_of_signal_out st' c sock S o Hs), Hl. split.
    - intros (r & Hr & Ho).
      apply elem_of_broadcast in Ho as (d & ? & ? & ? & ->). by exists r, d.
    - intros (r & d & Hr & Hd & Hex & ->). exists r. split; [done|].
      apply elem_of_broadcast. exists d. repeat split; try done.
      by apply (wf_connected st' Hwf d r). }
  split; [exact Hout|].
  intros latest d Hlast Hd Hex. apply Hout. exists latest, d.
  repeat split; try done. by apply last_Some_elem_of.
Qed.

(** *** Joining *)

Lemma addAll_idem id room a : addAll id room (addAll id room a) = addAll id room a.
Proof.
  unfold addAll, members, rooms_of. simpl.
  rewrite !lookup_insert_eq. simpl. rewrite !insert_insert_eq.
  f_equal; f_equal; set_solver.
Qed.

Lemma join_room_iter st c sock roomId n :
  sockets st !! c = Some sock →
  let join := λ s, fst (step s (JoinRoom c roomId)) in
  is_Some (sockets (Nat.iter (S n) join st) !! c) ∧
  adapter (Nat.iter (S n) join st) = addAll c roomId (adapter st).
Proof.
  intros Hc join.
  assert (∀ s sk, sockets s !! c = Some sk →
            is_Some (sockets (join s) !! c) ∧
            adapter (join s) = addAll c roomId (adapter s)) as Hjoin.
  { intros s sk Hs. unfold join. simpl. rewrite Hs. simpl. split; [|done].
    rewrite lookup_insert_eq. eauto. }
  clearbody join. induction n as [|n [[sk Hn] IH]].
  - simpl. by apply (Hjoin st sock).
  - rewrite Nat.iter_succ. destruct (Hjoin _ sk Hn) as [Hs Ha].
    split; [done|]. rewrite Ha, IH. apply addAll_idem.
Qed.

(** C5. [join] is idempotent on membership: after one or more
    ['join-room'] events of connection [c] for room [R] the adapter is as
    after the first one, and [c] occurs exactly once among the members of
    [R]. *)
Theorem join_idempotent st c sock R n :
  sockets st !! c = Some sock →
  let join := λ s, fst (step s (JoinRoom c R)) in
  adapter (Nat.iter (S n) join st) = adapter (join st) ∧
  (∀ room, members (adapter (join (Nat.iter (S n) join st))) room =
           members (adapter (Nat.iter (S n) join st)) room) ∧
  count_occ Nat.eq_dec (elements (members (adapter (Nat.iter (S n) join st)) R)) c
    = 1%nat.
Proof.
  intros Hc join.
  destruct (join_room_iter st c sock R n Hc) as [_ Hn].
  destruct (join_room_iter st c sock R 0 Hc) as [_ H1].
  destruct (join_room_iter st c sock R (S n) Hc) as [_ HSn].
  fold join in Hn, H1, HSn. simpl in H1. repeat split.
  - by rewrite Hn, H1.
  - intros room. change (join (Nat.iter (S n) join st))
      with (Nat.iter (S (S n)) join st). by rewrite HSn, Hn.
  - rewrite Hn. apply NoDup_count_occ'.
    + apply NoDup_ListNoDup, NoDup_elements.
    + apply list_elem_of_In, elem_of_elements.
      rewrite members_addAll, decide_True by done. set_solver.
Qed.

(** *** Disconnecting *)

Lemma no_empty_room_members a room :
  no_empty_room a → members a room = ∅ → rooms a !! room = None.
Proof.
  intros Ha. unfold members. destruct (rooms a !! room) as [s|] eqn:Hs; [|done].
  simpl. intros ->. by destruct (Ha room ∅ Hs).
Qed.

Lemma step_disconnect_members st c recoverable room :
  wf st →
  members (adapter (fst (step st (Disconnect c recoverable)))) room =
  members (adapter st) room ∖ {[c]}.
Proof.
  intros Hwf. simpl. destruct (sockets st !! c) as [sock|] eqn:Hc; simpl.
  - by apply members_delAll_wf.
  - pose proof (wf_not_connected st c room Hwf Hc). set_solver.
Qed.

(** C6. In every reachable state, after [disconnect] of connection [c]:
    [c] is a member of no channel and has no room on record, every other
    membership is as before, a channel whose membership became empty is no
    longer among the active channels, and no active channel is empty. *)
Theorem disconnect_leaves_every_room st c recoverable :
  reachable st →
  let st' := fst (step st (Disconnect c recoverable)) in
  (∀ room, c ∉ members (adapter st') room) ∧
  rooms_of (adapter st') c = ∅ ∧
  (∀ room, members (adapter st') room = members (adapter st) room ∖ {[c]}) ∧
  (∀ room, members (adapter st) room ∖ {[c]} = ∅ →
           room ∉ dom (rooms (adapter st'))) ∧
  no_empty_room (adapter st').
Proof.
  intros Hst st'.
  assert (wf st) as Hwf by (by apply reachable_wf).
  assert (wf st') as Hwf' by (by apply wf_step).
  assert (∀ room, members (adapter st') room = members (adapter st) room ∖ {[c]})
    as Hmem by (intros room; by apply step_disconnect_members).
  repeat split.
  - intros room. rewrite Hmem. set_solver.
  - apply set_eq. intros room. rewrite <- (wf_sids st' Hwf'), Hmem. set_solver.
  - exact Hmem.
  - intros room Hempty. rewrite elem_of_dom.
    rewrite (no_empty_room_members (adapter st') room); [by intros [? ?]| |].
    + apply (wf_nonempty st' Hwf').
    + by rewrite Hmem.
  - apply (wf_nonempty st' Hwf').
Qed.

(** *** Relaying to nobody *)

Lemma broadcast_nobody st c roomId ev S :
  (∀ d, d ∈ members (adapter st) roomId →
        d ∈ members (adapter st) (own_room c)) →
  broadcast st c roomId ev S = [].
Proof.
  intros Honly. unfold broadcast. rewrite computeExceptSids_own.
  assert (∀ d, d ∈ elements (members (adapter st) roomId) →
               d ∈ members (adapter st) (own_room c)) as Hl
    by (intros d Hd%elem_of_elements; by apply Honly).
  revert Hl. generalize (elements (members (adapter st) roomId)) as l.
  unfold omap. induction l as [|x l IH]; intros Hl; simpl; [done|].
  rewrite decide_True by (apply Hl; by left).
  apply IH. intros d Hd. apply Hl. by right.
Qed.

(** C7, as the handlers have it. A relay of connection [c] to a target
    channel [R] that has no member other than [c] (a channel nobody is in,
    or one of which [c] is the sole member, never joined by anyone else or
    left by all the others) surfaces no error and delivers nothing then;
    the rooms, the sockets and the sessions are as before, and the packet
    is kept among the packets of the recovery buffer. *)
Theorem relay_without_audience st c sock R S :
  reachable st →
  sockets st !! c = Some sock →
  members (adapter st) R = ∅ ∨ members (adapter st) R = {[c]} →
  snd (relay st c R S) = [] ∧
  (∀ o, o ∈ snd (step st (WebrtcSignal c S)) → addressee o ≠ c) ∧
  adapter (fst (relay st c R S)) = adapter st ∧
  sockets (fst (relay st c R S)) = sockets st ∧
  sessions (fst (relay st c R S)) = sessions st ∧
  packets (fst (relay st c R S)) =
    packets st ++ [{| offset := emitted st; to_room := R;
                      except_room := own_room c;
                      event := "webrtc-signal"; data := wire S |}].
Proof.
  intros Hwf%reachable_wf Hc Hsole. split; [|split; [|done]].
  - apply broadcast_nobody. intros d Hd.
    destruct Hsole as [Hnone|Hsole]; rewrite ?Hnone, ?Hsole in Hd.
    + by apply elem_of_empty in Hd.
    + apply elem_of_singleton in Hd as ->. apply (wf_own_room st Hwf). eauto.
  - intros o (r & _ & Ho)%(elem_of_signal_out st c sock S _ Hc).
    apply elem_of_broadcast in Ho as (d & _ & Hex & _ & ->). simpl.
    intros ->. apply Hex, (wf_own_room st Hwf). eauto.
Qed.

(** A listener never targets a channel its connection is not in: the case
    of a relay by a non-member does not arise from the handlers. *)
Lemma listener_room_has_sender st c sock R :
  reachable st → sockets st !! c = Some sock → R ∈ listeners sock →
  c ∈ members (adapter st) R.
Proof. intros Hwf%reachable_wf. apply (wf_listeners st Hwf). Qed.

(** *** Admission *)

Local Notation verifyToken := (verifyToken sign claims_of).
Local Notation invalid := (invalid sign claims_of).
Local Notation valid := (valid sign claims_of).

Lemma strip_bearer_header token :
  strip_prefix "Bearer " (bearer_header token) = Some (default "undefined" token).
Proof. reflexivity. Qed.

Lemma verifyToken_invalid now token :
  invalid now token → verifyToken (default "undefined" token) now = None.
Proof.
  unfold Relay.verifyToken.
  destruct 1 as [|t Hlen|t h p s Hsplit Hp|t h p s Hsplit Hsig
                 |t h p s who exp Hsplit Hp Hexp]; simpl.
  - reflexivity.
  - destruct (split_dot t) as [|? [|? [|? [|? ?]]]]; done.
  - rewrite Hsplit, Hp. by case_match.
  - rewrite Hsplit. apply String.eqb_neq in Hsig. by rewrite Hsig.
  - rewrite Hsplit, Hp. case_match; [|done].
    assert ((now <? exp) = false) as -> by lia. done.
Qed.

Lemma verifyToken_valid now token who :
  valid now token who → verifyToken (default "undefined" token) now = Some who.
Proof.
  intros (t & h & p & s & exp & -> & Hsplit & Hsig & Hp & Hexp).
  unfold Relay.verifyToken. simpl. rewrite Hsplit, Hsig, String.eqb_refl, Hp.
  assert ((now <? exp) = true) as -> by lia. done.
Qed.

Lemma io_use_invalid now token :
  invalid now token →
  io_use token now =
  ({| authorization := bearer_header token; user := None |}, Some Unauthenticated).
Proof.
  intros Hinv. unfold Relay.io_use, jwtVerify. simpl authorization.
  by rewrite strip_bearer_header, verifyToken_invalid.
Qed.

Lemma io_use_valid now token who :
  valid now token who →
  io_use token now =
  ({| authorization := bearer_header token; user := Some who |}, None).
Proof.
  intros Hval. unfold Relay.io_use, jwtVerify. simpl authorization.
  by rewrite strip_bearer_header, (verifyToken_valid now token who).
Qed.

(** No handler of the source writes to a socket: every connected socket of
    every reachable state is without identity. *)
Lemma reachable_no_identity st c sock :
  reachable st → sockets st !! c = Some sock → identity sock = None.
Proof. intros Hwf%reachable_wf. apply (wf_identity st Hwf). Qed.

(** C4, as the middleware has it. A new connection that resumes no session
    and whose handshake token is invalid (missing, malformed,
    signature-mismatched or expired) is refused with [Unauthenticated], is
    not registered, and none of its events runs a handler; with a valid
    token it is admitted and the identity encoded in the token is set on the
    request object built for the check, while the admitted socket itself
    carries no identity. A reconnection that resumes a kept session is
    admitted without the middleware, whatever its token. *)
Theorem admit_gate st c token now :
  sockets st !! c = None →
  (invalid now token →
     snd (io_use token now) = Some Unauthenticated ∧
     step st (Connect c token now) = (st, [ConnectError c Unauthenticated]) ∧
     (∀ roomId, step st (JoinRoom c roomId) = (st, [])) ∧
     (∀ S, step st (WebrtcSignal c S) = (st, [])) ∧
     (∀ recoverable, step st (Disconnect c recoverable) = (st, []))) ∧
  (∀ who, valid now token who →
     user (fst (io_use token now)) = Some who ∧
     snd (io_use token now) = None ∧
     step st (Connect c token now) = (on_connection st c, []) ∧
     sockets (on_connection st c) !! c =
       Some {| identity := None; listeners := [] |}) ∧
  (∀ off sessionRooms missed,
     restoreSession st c off = Some (sessionRooms, missed) →
     step st (Recover c off token) = on_recover st c sessionRooms missed ∧
     sockets (fst (on_recover st c sessionRooms missed)) !! c =
       Some {| identity := None; listeners := [] |}).
Proof.
  intros Hc. split; [|split].
  - intros Hinv. simpl. rewrite Hc, (io_use_invalid now token Hinv). by simpl.
  - intros who Hval. simpl. rewrite Hc, (io_use_valid now token who Hval).
    simpl. by rewrite lookup_insert_eq.
  - intros off sessionRooms missed Hrestore. simpl. rewrite Hc, Hrestore.
    split; [done|]. simpl. by rewrite lookup_insert_eq.
Qed.

End Handlers.

(** *** The handlers at work on the small token scheme *)

Lemma demo_reachable es : reachable demo_sign demo_claims (fst (demo_run init es)).
Proof. apply reachable_run. constructor. Qed.

(** The state in which socket 1 arrives. *)
Lemma before_1_reachable :
  reachable demo_sign demo_claims (fst (demo_run init before_1)).
Proof. apply demo_reachable. Qed.

(** C1, as stated, fails twice. Socket 1, dropped and restored by
    connection state recovery, is in [room42] again with socket 2 and has no
    listener: its signal reaches nobody. And when socket 2 has also joined
    the room named by the id of socket 1, the signal that socket 1 relays
    to [room42], of which both are members, leaves socket 2 out with the
    sender. *)
Lemma member_signal_not_relayed :
  (let st := fst (demo_run init (dropped_1 ++ [Recover 1 0 None])) in
   elements (members (adapter st) "room42") = [2%nat; 1%nat] ∧
   demo_step st (WebrtcSignal 1 offer) = (st, [])) ∧
  (let st := fst (demo_run init (into_own_room ++
                                 [JoinRoom 1 "room42"; JoinRoom 2 "room42"])) in
   elements (members (adapter st) "room42") = [2%nat; 1%nat] ∧
   (listeners <$> sockets st !! 1%nat) = Some ["room42"] ∧
   snd (demo_step st (WebrtcSignal 1 offer)) = []).
Proof. vm_compute. done. Qed.

Lemma relay_to_other_members_witness :
  let st := fst (demo_run init (before_1 ++ Connect 1 demo_token 0 :: joins_1)) in
  let out := snd (demo_step st (WebrtcSignal 1 offer)) in
  1%nat ∈ members (adapter st) "room42" ∧
  (∀ d, d ∈ members (adapter st) "room42" →
        d ∉ members (adapter st) (own_room 1) →
        Emit d "webrtc-signal" (wire offer) ∈ out) ∧
  (∀ o, o ∈ out → ∃ d, o = Emit d "webrtc-signal" (wire offer) ∧ d ≠ 1%nat).
Proof.
  apply (relay_to_other_members demo_sign demo_claims _ 1%nat
           {| identity := None; listeners := ["room42"; "lobby"] |}).
  - apply demo_reachable.
  - reflexivity.
  - left.
Defined.

(** C2, as stated, fails: socket 1 joined [room42] and then [lobby]; its
    signal is not what a relay to the room joined last would send (nothing:
    nobody else is in [lobby]), it reaches socket 2 through [room42]. *)
Lemma signal_reaches_earlier_room :
  let st := fst (demo_run init (before_1 ++ Connect 1 demo_token 0 :: joins_1)) in
  last (joins_by 1 (before_1 ++ Connect 1 demo_token 0 :: joins_1)) = Some "lobby" ∧
  snd (relay st 1 "lobby" offer) = [] ∧
  snd (demo_step st (WebrtcSignal 1 offer)) = [Emit 2 "webrtc-signal" offer] ∧
  snd (demo_step st (WebrtcSignal 1 offer)) ≠ snd (relay st 1 "lobby" offer).
Proof. vm_compute. repeat split; discriminate. Qed.

Lemma signal_relayed_to_joined_rooms_witness :
  let st' := fst (demo_run (fst (demo_run init before_1))
                           (Connect 1 demo_token 0 :: joins_1)) in
  let out := snd (demo_step st' (WebrtcSignal 1 offer)) in
  (∀ o, o ∈ out ↔
        ∃ roomId d, roomId ∈ joins_by 1 joins_1 ∧
                    d ∈ members (adapter st') roomId ∧
                    (d ∉ members (adapter st') (own_room 1)) ∧
                    o = Emit d "webrtc-signal" (wire offer)) ∧
  (∀ latest d, last (joins_by 1 joins_1) = Some latest →
               d ∈ members (adapter st') latest →
               d ∉ members (adapter st') (own_room 1) →
               Emit d "webrtc-signal" (wire offer) ∈ out).
Proof.
  apply (signal_relayed_to_joined_rooms demo_sign demo_claims).
  - apply before_1_reachable.
  - reflexivity.
  - reflexivity.
  - reflexivity.
Defined.

Lemma signal_runs_once_per_join_witness :
  let st' := fst (demo_run (fst (demo_run init before_1))
                           (Connect 1 demo_token 0 :: joins_1)) in
  ∃ sock, sockets st' !! 1%nat = Some sock ∧
    listeners sock = joins_by 1 joins_1 ∧
    ∀ S,
      snd (demo_step st' (WebrtcSignal 1 S)) =
        flat_map (λ roomId, snd (relay st' 1 roomId S)) (joins_by 1 joins_1) ∧
      ∀ d,
        deliveries_to d (snd (demo_step st' (WebrtcSignal 1 S))) =
        if decide (d ∈ members (adapter st') (own_room 1)) then 0%nat
        else length (List.filter (λ r, bool_decide (d ∈ members (adapter st') r))
                                 (joins_by 1 joins_1)).
Proof.
  apply (signal_runs_once_per_join demo_sign demo_claims).
  - apply before_1_reachable.
  - reflexivity.
  - reflexivity.
  - reflexivity.
Defined.

(** Sockets 1 and 2 are both in [room42]; socket 1 sends an offer: socket 2
    receives exactly that object and socket 1 nothing. *)
Example offer_reaches_the_peer :
  let st := fst (demo_run init (before_1 ++ [Connect 1 demo_token 0;
                                             JoinRoom 1 "room42"])) in
  snd (demo_step st (WebrtcSignal 1 offer)) = [Emit 2 "webrtc-signal" offer].
Proof. vm_compute. done. Qed.

(** Joining [room42] twice: socket 2 is sent each signal of socket 1 twice. *)
Example joined_twice_delivered_twice :
  let st := fst (demo_run init
                   (before_1 ++ [Connect 1 demo_token 0;
                                 JoinRoom 1 "room42"; JoinRoom 1 "room42"])) in
  snd (demo_step st (WebrtcSignal 1 offer)) =
    [Emit 2 "webrtc-signal" offer; Emit 2 "webrtc-signal" offer] ∧
  deliveries_to 2 (snd (demo_step st (WebrtcSignal 1 offer))) = 2%nat ∧
  elements (members (adapter st) "room42") = [2%nat; 1%nat].
Proof. vm_compute. done. Qed.

(** An event sent without payload arrives as [null]. *)
Example signal_without_payload :
  let st := fst (demo_run init (before_1 ++ [Connect 1 demo_token 0;
                                             JoinRoom 1 "room42"])) in
  snd (demo_step st (WebrtcSignal 1 Js.Undefined)) =
    [Emit 2 "webrtc-signal" Js.Null].
Proof. vm_compute. done. Qed.

Lemma join_idempotent_witness :
  let st := fst (demo_run init [Connect 1 demo_token 0]) in
  let join := λ s, fst (demo_step s (JoinRoom 1 "room42")) in
  adapter (Nat.iter 3 join st) = adapter (join st) ∧
  (∀ room, members (adapter (join (Nat.iter 3 join st))) room =
           members (adapter (Nat.iter 3 join st)) room) ∧
  count_occ Nat.eq_dec (elements (members (adapter (Nat.iter 3 join st)) "room42")) 1%nat
    = 1%nat.
Proof.
  apply (join_idempotent demo_sign demo_claims _ 1%nat
           {| identity := None; listeners := [] |} "room42" 2).
  reflexivity.
Defined.

Lemma disconnect_leaves_every_room_witness :
  let st := fst (demo_run init (before_1 ++ Connect 1 demo_token 0 :: joins_1)) in
  let st' := fst (demo_step st (Disconnect 1 false)) in
  (∀ room, 1%nat ∉ members (adapter st') room) ∧
  rooms_of (adapter st') 1%nat = ∅ ∧
  (∀ room, members (adapter st') room = members (adapter st) room ∖ {[1%nat]}) ∧
  (∀ room, members (adapter st) room ∖ {[1%nat]} = ∅ →
           room ∉ dom (rooms (adapter st'))) ∧
  no_empty_room (adapter st').
Proof.
  apply (disconnect_leaves_every_room demo_sign demo_claims).
  apply demo_reachable.
Defined.

(** After socket 1 has left, [lobby] and the room of its id are gone and
    [room42] is socket 2's. *)
Example disconnect_drops_empty_room :
  let st := fst (demo_run init (before_1 ++ Connect 1 demo_token 0 :: joins_1)) in
  let st' := fst (demo_step st (Disconnect 1 false)) in
  size (dom (rooms (adapter st))) = 4%nat ∧
  size (dom (rooms (adapter st'))) = 2%nat ∧
  elements (members (adapter st') "room42") = [2%nat] ∧
  elements (members (adapter st') "lobby") = [] ∧
  elements (members (adapter st') "1") = [].
Proof. vm_compute. done. Qed.

(** C7, as stated, fails three times. The relay does not look at the
    sender's membership: called for socket 1, which is not in [room42], it
    delivers to socket 2, which is. A sole member's relay is not without
    effect on the state: the packet is kept. And when the other member of
    the channel has disconnected by losing its connection, the signal that
    socket 2 sends, alone in [room42], is delivered after all: to socket 1,
    when it resumes its session. *)
Lemma relay_not_a_no_op :
  (let st := fst (demo_run init (before_1 ++ [Connect 1 demo_token 0])) in
   elements (members (adapter st) "room42") = [2%nat] ∧
   snd (relay st 1 "room42" offer) = [Emit 2 "webrtc-signal" offer]) ∧
  (let st := fst (demo_run init left_alone) in
   elements (members (adapter st) "room42") = [2%nat] ∧
   snd (demo_step st (WebrtcSignal 2 offer)) = [] ∧
   packets st = [] ∧
   length (packets (fst (demo_step st (WebrtcSignal 2 offer)))) = 1%nat) ∧
  (let st := fst (demo_run init dropped_1) in
   elements (members (adapter st) "room42") = [2%nat] ∧
   snd (demo_step st (WebrtcSignal 2 offer)) = [] ∧
   snd (demo_step (fst (demo_step st (WebrtcSignal 2 offer))) (Recover 1 0 None)) =
     [Emit 1 "webrtc-signal" offer]).
Proof. vm_compute. done. Qed.

Lemma relay_without_audience_witness :
  let st := fst (demo_run init left_alone) in
  snd (relay st 2 "room42" offer) = [] ∧
  (∀ o, o ∈ snd (demo_step st (WebrtcSignal 2 offer)) → addressee o ≠ 2%nat) ∧
  adapter (fst (relay st 2 "room42" offer)) = adapter st ∧
  sockets (fst (relay st 2 "room42" offer)) = sockets st ∧
  sessions (fst (relay st 2 "room42" offer)) = sessions st ∧
  packets (fst (relay st 2 "room42" offer)) =
    packets st ++ [{| offset := emitted st; to_room := "room42";
                      except_room := own_room 2;
                      event := "webrtc-signal"; data := wire offer |}].
Proof.
  apply (relay_without_audience demo_sign demo_claims _ 2%nat
           {| identity := None; listeners := ["room42"] |}).
  - apply demo_reachable.
  - reflexivity.
  - right. reflexivity.
Defined.

(** Socket 1 joined [room42] and left on purpose; socket 2 joins later and
    sends a signal: nobody receives it. *)
Example signal_in_an_empty_room :
  let st := fst (demo_run init left_alone) in
  snd (demo_step st (WebrtcSignal 2 offer)) = [].
Proof. vm_compute. done. Qed.

Lemma demo_token_valid : valid demo_sign demo_claims 0 demo_token "alice".
Proof. exists "h.alice.sig", "h", "alice", "sig", 100. by repeat split. Qed.

(** C4, as stated, fails on both halves. With a valid token that encodes
    [alice] the connection is admitted and the admitted socket carries no
    identity; and a reconnection that resumes the session of the dropped
    socket 1 is admitted although its handshake carries no token. *)
Lemma admitted_socket_without_identity :
  (valid demo_sign demo_claims 0 demo_token "alice" ∧
   ∃ sock,
     sockets (fst (demo_step init (Connect 1 demo_token 0))) !! 1%nat = Some sock ∧
     identity sock ≠ Some "alice") ∧
  (invalid demo_sign demo_claims 0 None ∧
   let st := fst (demo_run init dropped_1) in
   sockets st !! 1%nat = None ∧
   snd (demo_step st (Recover 1 0 None)) = [] ∧
   sockets (fst (demo_step st (Recover 1 0 None))) !! 1%nat =
     Some {| identity := None; listeners := [] |}).
Proof.
  split; split.
  - apply demo_token_valid.
  - eexists. split; [reflexivity|]. by simpl.
  - constructor.
  - vm_compute. done.
Qed.

Lemma admit_gate_witness :
  (snd (io_use demo_sign demo_claims None 0) = Some Unauthenticated ∧
   demo_step init (Connect 1 None 0) = (init, [ConnectError 1 Unauthenticated]) ∧
   (∀ roomId, demo_step init (JoinRoom 1 roomId) = (init, [])) ∧
   (∀ S, demo_step init (WebrtcSignal 1 S) = (init, [])) ∧
   (∀ recoverable, demo_step init (Disconnect 1 recoverable) = (init, []))) ∧
  (user (fst (io_use demo_sign demo_claims demo_token 0)) = Some "alice" ∧
   snd (io_use demo_sign demo_claims demo_token 0) = None ∧
   demo_step init (Connect 1 demo_token 0) = (on_connection init 1, []) ∧
   sockets (on_connection init 1) !! 1%nat =
     Some {| identity := None; listeners := [] |}) ∧
  (let st := fst (demo_run init dropped_1) in
   let session := default (∅, []) (restoreSession st 1 0) in
   demo_step st (Recover 1 0 (Some "h.alice.forged")) =
     on_recover st 1 (fst session) (snd session) ∧
   sockets (fst (on_recover st 1 (fst session) (snd session))) !! 1%nat =
     Some {| identity := None; listeners := [] |}).
Proof.
  split; [|split].
  - apply (admit_gate demo_sign demo_claims init 1%nat None 0).
    + reflexivity.
    + constructor.
  - apply (admit_gate demo_sign demo_claims init 1%nat demo_token 0).
    + reflexivity.
    + apply demo_token_valid.
  - apply (admit_gate demo_sign demo_claims (fst (demo_run init dropped_1))
             1%nat (Some "h.alice.forged") 0).
    + reflexivity.
    + vm_compute. reflexivity.
Defined.

(** The four ways of being invalid, on the small scheme: each is refused. *)
Example refused_tokens :
  demo_step init (Connect 1 None 0) = (init, [ConnectError 1 Unauthenticated]) ∧
  demo_step init (Connect 1 (Some "alice") 0) =
    (init, [ConnectError 1 Unauthenticated]) ∧
  demo_step init (Connect 1 (Some "h.alice.forged") 0) =
    (init, [ConnectError 1 Unauthenticated]) ∧
  demo_step init (Connect 1 (Some "h.alice.sig") 100) =
    (init, [ConnectError 1 Unauthenticated]).
Proof. vm_compute. done. Qed.

End RelayFacts.

(** * Properties of the room routes *)

Module RoomsFacts.
Import Rooms.

Lemma get_absent k fields : Js.has k fields = false → Js.get k fields = Js.Undefined.
Proof.
  unfold Js.has. induction fields as [|[k' v] rest IH]; simpl; [done|].
  destruct (String.eqb k k'); simpl; [done|]. exact IH.
Qed.

(** Whatever is falsy for [!name] is answered like a missing name: the
    empty string, [null], [0] and [false] too. *)
Lemma create_room_falsy_name ok db fields u :
  Js.truthy (Js.get "name" fields) = false →
  post_create ok db {| body := Some fields; user := u |} =
  (db, {| status := 400; json := ErrorBody "Room name is required" |}).
Proof. intros Hname. unfold post_create. simpl. by rewrite Hname. Qed.

(** A request no body parser has touched throws at the destructuring. *)
Lemma create_room_no_body ok db u :
  post_create ok db {| body := None; user := u |} =
  (db, {| status := 500; json := ErrorBody "Server error" |}).
Proof. reflexivity. Qed.

(** The claim C8 as written fails: a body whose [name] is present but empty
    (or [null], [0], [false]) is answered 400, not 201, for an authenticated
    caller and a store that would accept the room. *)
Lemma present_name_rejected :
  let db := {| rooms := []; users := {["u1" := "ada"]} |} in
  let caller := Some {| userId := "u1" |} in
  let refused := (db, {| status := 400; json := ErrorBody "Room name is required" |}) in
  Js.has "name" [("name", Js.Str "")] = true ∧
  post_create true db {| body := Some [("name", Js.Str "")]; user := caller |}
    = refused ∧
  post_create true db {| body := Some [("name", Js.Null)]; user := caller |}
    = refused ∧
  post_create true db {| body := Some [("name", Js.Num 0%Q)]; user := caller |}
    = refused ∧
  post_create true db {| body := Some [("name", Js.Bool false)]; user := caller |}
    = refused.
Proof. vm_compute. done. Qed.

(** C8, as the handler has it. For an authenticated caller [uid],
    [POST /rooms/create] answers 400 when [name] is falsy, which a body
    without [name] is, and so are the names [null], [false], [0] and the
    empty string; when [name] is truthy it answers 201 with the created
    room if the save succeeds and 500 if it fails; the created room has the
    name sent, is [createdBy] the caller and its [members] are the caller
    alone. *)
Theorem create_room_responses db fields uid :
  let req := {| body := Some fields; user := Some {| userId := uid |} |} in
  let sent := Js.get "name" fields in
  (Js.has "name" fields = false → Js.truthy sent = false) ∧
  (sent ∈ [Js.Null; Js.Bool false; Js.Num 0%Q; Js.Str ""] →
   Js.truthy sent = false) ∧
  (Js.truthy sent = false →
   ∀ ok, post_create ok db req =
         (db, {| status := 400; json := ErrorBody "Room name is required" |})) ∧
  (Js.truthy sent = true →
     let room := {| name := sent; createdBy := uid; members := [uid] |} in
     post_create true db req =
       ({| rooms := rooms db ++ [room]; users := users db |},
        {| status := 201; json := RoomBody room |}) ∧
     post_create false db req =
       (db, {| status := 500; json := ErrorBody "Server error" |})).
Proof.
  intros req sent. split; [|split; [|split]].
  - intros Hno. unfold sent. by rewrite get_absent.
  - intros Hv.
    repeat (apply elem_of_cons in Hv as [->|Hv]; [done|]).
    by apply elem_of_nil in Hv.
  - intros Hname ok. by apply create_room_falsy_name.
  - intros Hname. unfold post_create, req. simpl. fold sent. by rewrite Hname.
Qed.

Lemma create_room_responses_witness :
  let db := {| rooms := []; users := {["u1" := "ada"]} |} in
  post_create true db {| body := Some []; user := Some {| userId := "u1" |} |} =
    (db, {| status := 400; json := ErrorBody "Room name is required" |}) ∧
  (let room := {| name := Js.Str "Algorithms"; createdBy := "u1"; members := ["u1"] |} in
   let req := {| body := Some [("name", Js.Str "Algorithms")];
                 user := Some {| userId := "u1" |} |} in
   post_create true db req =
     ({| rooms := rooms db ++ [room]; users := users db |},
      {| status := 201; json := RoomBody room |}) ∧
   post_create false db req =
     (db, {| status := 500; json := ErrorBody "Server error" |})).
Proof.
  split.
  - apply (create_room_responses _ [] "u1"). reflexivity.
  - apply (create_room_responses _ [("name", Js.Str "Algorithms")] "u1").
    reflexivity.
Defined.

(** *** The store only grows *)

Lemma post_create_store ok db req :
  users (fst (post_create ok db req)) = users db ∧
  ∃ added, rooms (fst (post_create ok db req)) = rooms db ++ added.
Proof.
  unfold post_create. destruct (body req) as [fields|]; simpl.
  - destruct (Js.truthy (Js.get "name" fields)); simpl.
    + destruct (user req) as [u|]; simpl.
      * destruct ok; simpl; split; try done.
        -- by eexists.
        -- exists []. by rewrite app_nil_r.
      * split; [done|]. exists []. by rewrite app_nil_r.
    + split; [done|]. exists []. by rewrite app_nil_r.
  - split; [done|]. exists []. by rewrite app_nil_r.
Qed.

Lemma serve_create_store db later :
  users (foldl serve_create db later) = users db ∧
  ∃ added, rooms (foldl serve_create db later) = rooms db ++ added.
Proof.
  revert db. induction later as [|[ok req] later IH]; intros db; simpl.
  - split; [done|]. exists []. by rewrite app_nil_r.
  - destruct (IH (serve_create db (ok, req))) as [Hu [added Hr]].
    destruct (post_create_store ok db req) as [Hu1 [added1 Hr1]].
    unfold serve_create in *. simpl in *. split; [congruence|].
    exists (added1 ++ added). by rewrite Hr, Hr1, app_assoc.
Qed.

(** C9. After a successful [createRoom(s, uid)] (with [s] = "Algorithms"
    in the scenario), a later [listRooms()], with any number of creations in
    between, returns a list containing a room named [s] whose [createdBy] is
    resolved to the user document of [uid] and whose [members] contain it. *)
Theorem created_room_is_listed ok db db' resp fields s uid uname later :
  users db !! uid = Some uname →
  Js.get "name" fields = Js.Str s →
  post_create ok db {| body := Some fields; user := Some {| userId := uid |} |}
    = (db', resp) →
  status resp = 201%nat →
  ∃ found,
    get_rooms true (foldl serve_create db' later) =
      {| status := 200; json := RoomsBody found |} ∧
    ∃ r, r ∈ found ∧
         p_name r = Js.Str s ∧
         p_createdBy r = Some {| _id := uid; username := uname |} ∧
         {| _id := uid; username := uname |} ∈ p_members r.
Proof.
  intros Huser Hname Hpost Hstatus.
  unfold post_create in Hpost. simpl in Hpost. rewrite Hname in Hpost.
  destruct (Js.truthy (Js.Str s)); simpl in Hpost;
    [|injection Hpost as <- <-; discriminate].
  destruct ok; simpl in Hpost; injection Hpost as <- <-; [|discriminate].
  set (room := {| name := Js.Str s; createdBy := uid; members := [uid] |}).
  set (db' := {| rooms := rooms db ++ [room]; users := users db |}).
  destruct (serve_create_store db' later) as [Hu [added Hr]].
  eexists. split; [reflexivity|].
  exists (populate (foldl serve_create db' later) room).
  assert (populate_ref (foldl serve_create db' later) uid =
          Some {| _id := uid; username := uname |}) as Href.
  { unfold populate_ref. rewrite Hu. simpl. by rewrite Huser. }
  split; [|split; [done|split]].
  - apply list_elem_of_fmap. exists room. split; [done|].
    rewrite Hr. simpl. set_solver.
  - exact Href.
  - simpl. rewrite Href. by left.
Qed.

Lemma created_room_is_listed_witness :
  let db := {| rooms := []; users := {["u1" := "ada"]} |} in
  let room := {| name := Js.Str "Algorithms"; createdBy := "u1"; members := ["u1"] |} in
  let db' := {| rooms := [room]; users := users db |} in
  ∃ found,
    get_rooms true (foldl serve_create db' []) =
      {| status := 200; json := RoomsBody found |} ∧
    ∃ r, r ∈ found ∧
         p_name r = Js.Str "Algorithms" ∧
         p_createdBy r = Some {| _id := "u1"; username := "ada" |} ∧
         {| _id := "u1"; username := "ada" |} ∈ p_members r.
Proof.
  apply (created_room_is_listed true
           {| rooms := []; users := {["u1" := "ada"]} |} _
           {| status := 201;
              json := RoomBody {| name := Js.Str "Algorithms"; createdBy := "u1";
                                  members := ["u1"] |} |}
           [("name", Js.Str "Algorithms")] "Algorithms" "u1" "ada" []).
  - reflexivity.
  - reflexivity.
  - reflexivity.
  - reflexivity.
Defined.

End RoomsFacts.

(** * Properties of the health route *)

Module HealthFacts.
Import Health.

Lemma limited_above f req max :
  limiter_max f = Some max → (max <= hits req)%nat → limited f req = true.
Proof.
  intros Hmax Hhits. unfold limited. rewrite Hmax. apply Nat.ltb_lt. lia.
Qed.

Lemma limited_below f req max :
  limiter_max f = Some max → (hits req < max)%nat → limited f req = false.
Proof.
  intros Hmax Hhits. unfold limited. rewrite Hmax. apply Nat.ltb_ge. lia.
Qed.

Lemma health_limited f penv env req max :
  limiter_max f = Some max → (max <= hits req)%nat →
  get_health f penv env req = {| status := 429; body := limiter_message f |}.
Proof.
  intros Hmax Hhits. unfold get_health.
  by rewrite (limited_above f req max).
Qed.

(** [server.js] and [part_001] have no [/health] route. *)
Lemma health_no_route penv env req :
  body_error req = None →
  status (get_health server_js penv env req) = 404%nat ∧
  status (get_health part_001 penv env req) = 404%nat.
Proof. intros Hb. unfold get_health. simpl. by rewrite Hb. Qed.

(** In [part_000] a request within the limit whose body the parser refuses
    never reaches the route: it is answered by the error handler of the
    file. *)
Lemma health_body_refused penv env req err :
  (hits req < 1000)%nat → body_error req = Some err →
  Some (get_health part_000 penv env req) =
    error_handler part_000 penv (now_iso env) (originalUrl req) err.
Proof.
  intros Hhits Hb. unfold get_health.
  rewrite (limited_below part_000 req 1000) by done.
  simpl. by rewrite Hb.
Qed.

(** C10, as stated, fails three times: the body of [part_002] has neither
    [timestamp] nor [uptime]; the 1001st request of a window is answered
    429 by the limiter of [part_000]; and a request to [part_000] that
    carries a body that is not JSON is answered 400 by the error handler. *)
Lemma health_not_always_full :
  let penv := {| NODE_ENV := Some "production" |} in
  let env := {| now_iso := "2025-01-01T00:00:00.000Z"; uptime := (3 # 2)%Q |} in
  let get := {| hits := 0; originalUrl := "/health"; body_error := None |} in
  let late := {| hits := 1000; originalUrl := "/health"; body_error := None |} in
  let malformed :=
    {| hits := 0; originalUrl := "/health";
       body_error := Some {| message := "Unexpected token";
                             stack := Some "SyntaxError: Unexpected token";
                             err_status := Some 400%nat;
                             statusCode := Some 400%nat |} |} in
  (status (get_health part_002 penv env get) = 200%nat ∧
   has_field "timestamp" (body (get_health part_002 penv env get)) = false ∧
   has_field "uptime" (body (get_health part_002 penv env get)) = false) ∧
  status (get_health part_000 penv env late) = 429%nat ∧
  get_health part_000 penv env malformed =
    {| status := 400;
       body := Json (Js.Obj [("timestamp", Js.Str "2025-01-01T00:00:00.000Z");
                             ("path", Js.Str "/health");
                             ("message", Js.Str "Something went wrong")]) |}.
Proof. vm_compute. done. Qed.

(** C10, as the two files have it. In [part_000] a [GET /health] request
    that the rate limiter lets through (limit 1000 a window) and whose
    body, if it has one, the body parser accepts is answered 200 with
    [status], [timestamp] and [uptime]; in [part_002], which has no body
    parser, a request that the limiter lets through (limit 100 a window) is
    answered 200 with [status] alone. *)
Theorem health_within_limit penv env req :
  ((hits req < 1000)%nat → body_error req = None →
   get_health part_000 penv env req =
     {| status := 200;
        body := Json (Js.Obj [("status", Js.Str "ok");
                              ("timestamp", Js.Str (now_iso env));
                              ("uptime", Js.Num (uptime env))]) |} ∧
   has_field "status" (body (get_health part_000 penv env req)) = true ∧
   has_field "timestamp" (body (get_health part_000 penv env req)) = true ∧
   has_field "uptime" (body (get_health part_000 penv env req)) = true) ∧
  ((hits req < 100)%nat →
   get_health part_002 penv env req =
     {| status := 200; body := Json (Js.Obj [("status", Js.Str "ok")]) |} ∧
   has_field "status" (body (get_health part_002 penv env req)) = true).
Proof.
  unfold get_health. split.
  - intros Hhits Hb.
    rewrite (limited_below part_000 req 1000) by done.
    simpl. by rewrite Hb.
  - intros Hhits.
    by rewrite (limited_below part_002 req 100).
Qed.

Lemma health_within_limit_witness :
  let penv := {| NODE_ENV := None |} in
  let env := {| now_iso := "2025-01-01T00:00:00.000Z"; uptime := (3 # 2)%Q |} in
  let req := {| hits := 7; originalUrl := "/health"; body_error := None |} in
  get_health part_000 penv env req =
    {| status := 200;
       body := Json (Js.Obj [("status", Js.Str "ok");
                             ("timestamp", Js.Str "2025-01-01T00:00:00.000Z");
                             ("uptime", Js.Num (3 # 2)%Q)]) |} ∧
  get_health part_002 penv env req =
    {| status := 200; body := Json (Js.Obj [("status", Js.Str "ok")]) |}.
Proof.
  split.
  - apply (health_within_limit {| NODE_ENV := None |}
             {| now_iso := "2025-01-01T00:00:00.000Z"; uptime := (3 # 2)%Q |}
             {| hits := 7; originalUrl := "/health"; body_error := None |}).
    + simpl. lia.
    + reflexivity.
  - apply (health_within_limit {| NODE_ENV := None |}
             {| now_iso := "2025-01-01T00:00:00.000Z"; uptime := (3 # 2)%Q |}
             {| hits := 7; originalUrl := "/health"; body_error := None |}).
    simpl. lia.
Defined.

End HealthFacts.

(** * More properties of the signalling relay *)

Module RegistryFacts.
Import Relay Registry RelayFacts.

Lemma sids_nonempty_addAll id room a :
  sids_nonempty a → sids_nonempty (addAll id room a).
Proof.
  intros Ha i s. simpl. destruct (decide (i = id)) as [->|Hne].
  - rewrite lookup_insert_eq. intros [= <-]. set_solver.
  - rewrite lookup_insert_ne by done. apply Ha.
Qed.

Lemma sids_nonempty_foldr_addAll id l a :
  sids_nonempty a → sids_nonempty (foldr (fun room acc => addAll id room acc) a l).
Proof.
  intros Ha. induction l as [|x l IH]; simpl; [done|].
  by apply sids_nonempty_addAll.
Qed.

Lemma sids_nonempty_delAll id a :
  sids_nonempty a → sids_nonempty (delAll id a).
Proof.
  intros Ha i s. unfold delAll.
  destruct (sids a !! id) as [joined|] eqn:Hj; simpl; [|apply Ha].
  rewrite sids_foldr__del. destruct (decide (i = id)) as [->|Hne].
  - by rewrite lookup_delete_eq.
  - rewrite lookup_delete_ne by done. apply Ha.
Qed.

Section Lifetime.

Variable sign : string → string.
Variable claims_of : string → option (string * Z).

Local Notation step := (step sign claims_of).
Local Notation run := (run sign claims_of).
Local Notation reachable := (reachable sign claims_of).
Local Notation io_use := (io_use sign claims_of).

Local Arguments joins_by : simpl never.

Lemma sids_nonempty_step st e :
  sids_nonempty (adapter st) → sids_nonempty (adapter (fst (step st e))).
Proof.
  intros Ha.
  destruct e as [id token now|id off token|id roomId|id signal|id recoverable|id|n];
    simpl; try done;
    destruct (sockets st !! id) as [sock|]; simpl; try done.
  - by destruct (snd (io_use token now)); simpl;
      [|apply sids_nonempty_addAll].
  - destruct (restoreSession st id off) as [[sessionRooms missed]|]; simpl; [|done].
    by apply sids_nonempty_addAll, sids_nonempty_foldr_addAll.
  - by apply sids_nonempty_addAll.
  - unfold on_webrtc_signal.
    by destruct (run_listeners_registry st id (listeners sock) signal) as (-> & _).
  - by apply sids_nonempty_delAll.
Qed.

Lemma reachable_sids_nonempty st :
  reachable st → sids_nonempty (adapter st).
Proof.
  induction 1 as [|st e _ IH].
  - intros id s. simpl. by rewrite lookup_empty.
  - by apply sids_nonempty_step.
Qed.

(** The registry of every reachable state is consistent: the two indexes
    of the adapter list the same memberships, a room on record has members
    and all of them are connected sockets, and a socket has an entry of
    rooms only while it is connected and in some room. *)
Theorem registry_consistent st :
  reachable st →
  (∀ id room, id ∈ members (adapter st) room ↔ room ∈ rooms_of (adapter st) id) ∧
  (∀ room s, rooms (adapter st) !! room = Some s →
             s ≠ ∅ ∧ ∀ id, id ∈ s → is_Some (sockets st !! id)) ∧
  (∀ id s, sids (adapter st) !! id = Some s →
           s ≠ ∅ ∧ is_Some (sockets st !! id)).
Proof.
  intros Hst. pose proof (reachable_wf sign claims_of st Hst) as Hwf.
  pose proof (reachable_sids_nonempty st Hst) as Hsids.
  split; [apply (wf_sids st Hwf)|]. split.
  - intros room s Hs. split; [by apply (wf_nonempty st Hwf room)|].
    intros id Hid. apply (wf_connected st Hwf id room).
    unfold members. by rewrite Hs.
  - intros id s Hs. split; [by apply (Hsids id)|].
    destruct (set_choose_L s (Hsids id s Hs)) as [room Hroom].
    apply (wf_connected st Hwf id room), (wf_sids st Hwf).
    unfold rooms_of. by rewrite Hs.
Qed.

(** *** The rooms of a connection *)

Lemma rooms_of_step st e c :
  is_Some (sockets st !! c) → stays c [e] = true →
  is_Some (sockets (fst (step st e)) !! c) ∧
  rooms_of (adapter (fst (step st e))) c =
    rooms_of (adapter st) c ∪ list_to_set (joins_by c [e]).
Proof.
  intros [sock Hc] He. unfold joins_by.
  destruct e as [id token now|id off token|id roomId|id signal|id recoverable|id|n];
    simpl; try (split; [eauto | set_solver]);
    destruct (sockets st !! id) as [s|] eqn:Hid; simpl;
    try (split; [eauto | set_solver]).
  - assert (id ≠ c) as Hne by (intros ->; congruence).
    destruct (snd (io_use token now)); simpl; [split; [eauto | set_solver]|].
    rewrite lookup_insert_ne, rooms_of_addAll, decide_False by done.
    split; [eauto | set_solver].
  - assert (id ≠ c) as Hne by (intros ->; congruence).
    destruct (restoreSession st id off) as [[sessionRooms missed]|]; simpl;
      [|split; [eauto | set_solver]].
    rewrite lookup_insert_ne, rooms_of_addAll, rooms_of_foldr_addAll,
      !decide_False by done.
    split; [eauto | set_solver].
  - rewrite rooms_of_addAll. destruct (decide (id = c)) as [->|Hne].
    + rewrite lookup_insert_eq, decide_True by done. split; [eauto|].
      simpl. set_solver.
    + rewrite lookup_insert_ne, decide_False by done.
      split; [eauto | set_solver].
  - rewrite decide_False by (intros ->; congruence).
    split; [eauto | set_solver].
  - unfold on_webrtc_signal.
    destruct (run_listeners_registry st id (listeners s) signal) as (-> & -> & _).
    split; [eauto | set_solver].
  - simpl in He. rewrite andb_true_r in He.
    apply negb_true_iff, bool_decide_eq_false in He.
    rewrite lookup_delete_ne, rooms_of_delAll, decide_False by done.
    split; [eauto | set_solver].
Qed.

Lemma rooms_of_run st es c :
  is_Some (sockets st !! c) → stays c es = true →
  rooms_of (adapter (fst (run st es))) c =
    rooms_of (adapter st) c ∪ list_to_set (joins_by c es).
Proof.
  revert st. induction es as [|e es IH]; intros st Hc Hes; simpl.
  - unfold joins_by. simpl. set_solver.
  - assert (stays c [e] = true ∧ stays c es = true) as [He Hes'].
    { unfold stays in *. simpl in *. apply andb_prop in Hes as [-> ->]. done. }
    destruct (rooms_of_step st e c Hc He) as [Hc1 Hr1].
    destruct (step st e) as [st1 out1]. simpl in *.
    specialize (IH st1 Hc1 Hes').
    destruct (run st1 es) as [st2 out2]. simpl in *.
    rewrite IH, Hr1, (joins_by_cons c e es), list_to_set_app_L. set_solver.
Qed.

(** While a new connection lasts it is a member of exactly the room named
    by its own id and the rooms it has sent a ['join-room'] for, whatever
    the other sockets do meanwhile. *)
Theorem member_iff_joined st c token now es :
  reachable st →
  sockets st !! c = None → snd (io_use token now) = None →
  stays c es = true →
  let st' := fst (run st (Connect c token now :: es)) in
  ∀ R, c ∈ members (adapter st') R ↔ R = own_room c ∨ R ∈ joins_by c es.
Proof.
  intros Hst Hc Hok Hes st' R.
  pose proof (reachable_wf sign claims_of st Hst) as Hwf.
  assert (wf st') as Hwf'
    by (by apply (reachable_wf sign claims_of), reachable_run).
  assert (st' = fst (run (on_connection st c) es)) as Hst'.
  { unfold st'. simpl. rewrite Hc, Hok. by destruct (run (on_connection st c) es). }
  rewrite (wf_sids st' Hwf'), Hst', rooms_of_run; [|simpl; rewrite lookup_insert_eq; eauto|done].
  simpl. rewrite rooms_of_addAll, decide_True by done.
  assert (rooms_of (adapter st) c = ∅) as ->.
  { apply set_eq. intros room. rewrite <- (wf_sids st Hwf).
    pose proof (wf_not_connected st c room Hwf Hc). set_solver. }
  rewrite !elem_of_union, elem_of_singleton, elem_of_list_to_set. set_solver.
Qed.

(** A signal stays within the rooms its sender shares: every packet a
    ['webrtc-signal'] event causes goes to a connected socket other than the
    sender that is, with the sender, a member of some room. *)
Theorem signal_stays_in_shared_rooms st c S o :
  reachable st →
  o ∈ snd (step st (WebrtcSignal c S)) →
  ∃ d R, o = Emit d "webrtc-signal" (wire S) ∧ d ≠ c ∧
         is_Some (sockets st !! d) ∧
         c ∈ members (adapter st) R ∧ d ∈ members (adapter st) R.
Proof.
  intros Hwf%(reachable_wf sign claims_of).
  destruct (sockets st !! c) as [sock|] eqn:Hc.
  - intros (R & HR & Ho)%(elem_of_signal_out sign claims_of st c sock S _ Hc).
    apply elem_of_broadcast in Ho as (d & Hd & Hex & Hconn & ->).
    exists d, R. repeat split; try done.
    + intros ->. apply Hex, (wf_own_room st Hwf). eauto.
    + by apply (wf_listeners st Hwf c sock R Hc).
  - simpl. rewrite Hc. simpl. by intros ?%elem_of_nil.
Qed.

(** A signal sent before the connection's first ['join-room'] is dropped:
    no listener is registered yet, so nobody receives it, whoever is in
    whichever room. *)
Theorem signal_before_join_dropped st c token now es S :
  sockets st !! c = None → snd (io_use token now) = None →
  stays c es = true → joins_by c es = [] →
  let st' := fst (run st (Connect c token now :: es)) in
  step st' (WebrtcSignal c S) = (st', []).
Proof.
  intros Hc Hok Hes Hjoins st'.
  destruct (listeners_since_connection sign claims_of st c token now es Hc Hok Hes)
    as (sock & Hs & Hl).
  fold st' in Hs. simpl. rewrite Hs. unfold on_webrtc_signal.
  by rewrite Hl, Hjoins.
Qed.

(** *** A whole lifetime *)







End Lifetime.

(** *** On the small token scheme *)

Lemma registry_consistent_witness :
  let st := fst (demo_run init (before_1 ++ Connect 1 demo_token 0 :: joins_1)) in
  (∀ id room, id ∈ members (adapter st) room ↔ room ∈ rooms_of (adapter st) id) ∧
  (∀ room s, rooms (adapter st) !! room = Some s →
             s ≠ ∅ ∧ ∀ id, id ∈ s → is_Some (sockets st !! id)) ∧
  (∀ id s, sids (adapter st) !! id = Some s →
           s ≠ ∅ ∧ is_Some (sockets st !! id)).
Proof.
  apply (registry_consistent demo_sign demo_claims). apply demo_reachable.
Defined.

Lemma member_iff_joined_witness :
  let st' := fst (demo_run (fst (demo_run init before_1))
                           (Connect 1 demo_token 0 :: joins_1)) in
  1%nat ∈ members (adapter st') "lobby" ↔
  "lobby" = own_room 1 ∨ "lobby" ∈ joins_by 1 joins_1.
Proof.
  apply (member_iff_joined demo_sign demo_claims).
  - apply before_1_reachable.
  - reflexivity.
  - reflexivity.
  - reflexivity.
Defined.

Lemma signal_stays_in_shared_rooms_witness :
  let st := fst (demo_run init (before_1 ++ Connect 1 demo_token 0 :: joins_1)) in
  ∃ d R, Emit 2 "webrtc-signal" offer = Emit d "webrtc-signal" (wire offer) ∧
         d ≠ 1%nat ∧ is_Some (sockets st !! d) ∧
         1%nat ∈ members (adapter st) R ∧ d ∈ members (adapter st) R.
Proof.
  apply (signal_stays_in_shared_rooms demo_sign demo_claims _ 1%nat offer).
  - apply demo_reachable.
  - vm_compute. left.
Defined.

Lemma signal_before_join_dropped_witness :
  let st' := fst (demo_run (fst (demo_run init before_1))
                           [Connect 1 demo_token 0; JoinRoom 2 "lobby"]) in
  demo_step st' (WebrtcSignal 1 offer) = (st', []).
Proof.
  apply (signal_before_join_dropped demo_sign demo_claims
           (fst (demo_run init before_1)) 1%nat demo_token 0
           [JoinRoom 2 "lobby"] offer).
  - reflexivity.
  - reflexivity.
  - reflexivity.
  - reflexivity.
Defined.


End RegistryFacts.

(** * More properties of the room routes *)

Module RoomsRunFacts.
Import Rooms RoomsRun.

(** The four ways [POST /create] ends. *)
Lemma post_create_cases ok db req :
  (∃ u fields,
     body req = Some fields ∧ user req = Some u ∧ ok = true ∧
     Js.truthy (Js.get "name" fields) = true ∧
     let room := {| name := Js.get "name" fields; createdBy := userId u;
                    members := [userId u] |} in
     post_create ok db req =
       ({| rooms := rooms db ++ [room]; users := users db |},
        {| status := 201; json := RoomBody room |})) ∨
  post_create ok db req =
    (db, {| status := 400; json := ErrorBody "Room name is required" |}) ∨
  post_create ok db req =
    (db, {| status := 500; json := ErrorBody "Server error" |}).
Proof.
  unfold post_create. destruct (body req) as [fields|] eqn:Hb; [|by right; right].
  destruct (Js.truthy (Js.get "name" fields)) eqn:Hn; simpl; [|by right; left].
  destruct (user req) as [u|] eqn:Hu; [|by right; right].
  destruct ok; simpl; [|by right; right].
  left. by exists u, fields.
Qed.

(** The store changes exactly when the answer is 201: then one room is
    appended, the room of the response, created by the caller with the
    caller as only member and a truthy name; every other answer is a 400 or
    a 500 with an error message, and leaves the store as it was. *)
Theorem create_changes_store_iff_201 ok db req :
  let db' := fst (post_create ok db req) in
  let resp := snd (post_create ok db req) in
  (status resp = 201%nat ∧
   ∃ u room, user req = Some u ∧ json resp = RoomBody room ∧
             createdBy room = userId u ∧ members room = [userId u] ∧
             Js.truthy (name room) = true ∧
             db' = {| rooms := rooms db ++ [room]; users := users db |}) ∨
  ((status resp = 400%nat ∨ status resp = 500%nat) ∧
   (∃ msg, json resp = ErrorBody msg) ∧ db' = db).
Proof.
  destruct (post_create_cases ok db req)
    as [(u & fields & Hb & Hu & Hok & Hn & Hpost)|[Hpost|Hpost]];
    simpl in *; rewrite Hpost; simpl.
  - left. split; [done|]. eexists u, _. by repeat split.
  - right. repeat split; eauto.
  - right. repeat split; eauto.
Qed.

(** The name is checked before anything else: a name that is missing,
    [null], empty, [false] or [0] is answered 400 and the store is left
    alone, whether or not the save would succeed and whether or not the
    request carries a user. *)
Theorem falsy_name_rejected_first ok db fields u v :
  Js.get "name" fields = v →
  v ∈ [Js.Undefined; Js.Null; Js.Str ""; Js.Bool false; Js.Num 0%Q] →
  post_create ok db {| body := Some fields; user := u |} =
  (db, {| status := 400; json := ErrorBody "Room name is required" |}).
Proof.
  intros Hget Hv. unfold post_create. simpl. rewrite Hget.
  repeat (apply elem_of_cons in Hv as [->|Hv]; [done|]).
  by apply elem_of_nil in Hv.
Qed.

Lemma falsy_name_rejected_first_witness :
  let db := {| rooms := []; users := ∅ |} in
  post_create true db {| body := Some [("name", Js.Str "")]; user := None |} =
  (db, {| status := 400; json := ErrorBody "Room name is required" |}).
Proof.
  apply (falsy_name_rejected_first true _ [("name", Js.Str "")] None (Js.Str "")).
  - reflexivity.
  - right. right. left.
Defined.

(** *** The route in [part_002] *)

(** Through [part_002] no room is ever created: the file mounts no body
    parser, so whatever the client sends and whoever sends it, the request
    is answered 429 by the limiter, refused by the authentication
    middleware, or answered 500 by the handler, and the store is left as it
    was. *)
Theorem part_002_never_creates ok db req sent auth :
  fst (post_create_part_002 ok db req sent auth) = db ∧
  (snd (post_create_part_002 ok db req sent auth) = TooManyRequests ∨
   snd (post_create_part_002 ok db req sent auth) = Unauthenticated ∨
   snd (post_create_part_002 ok db req sent auth) =
     Answered {| status := 500; json := ErrorBody "Server error" |}).
Proof.
  unfold post_create_part_002. destruct (Health.limited Health.part_002 req).
  - split; [done|]. by left.
  - destruct auth as [|u]; (split; [done|]).
    + right. by left.
    + right. by right.
Qed.

(** The same request through a server that parses the body is answered 201:
    it is the missing parser that keeps [part_002] from creating rooms. *)
Example part_002_refuses_a_good_request :
  let db := {| rooms := []; users := {["u1" := "ada"]} |} in
  let sent := [("name", Js.Str "Algorithms")] in
  let caller := {| userId := "u1" |} in
  let req := {| Health.hits := 0; Health.originalUrl := "/api/rooms/create";
                Health.body_error := None |} in
  post_create_part_002 true db req (Some sent) (Passed (Some caller)) =
    (db, Answered {| status := 500; json := ErrorBody "Server error" |}) ∧
  status (snd (post_create true db {| body := Some sent; user := Some caller |}))
    = 201%nat.
Proof. vm_compute. done. Qed.

End RoomsRunFacts.

(** * More properties of the server files *)

Module ServersFacts.
Import Health Servers.

(** Outside development mode no error handler discloses the error: two
    errors with the same [statusCode] get the same response, whatever their
    messages and stacks, and the body has no [stack] field. *)
Theorem error_details_not_disclosed f penv now url err1 err2 :
  development penv = false →
  statusCode err1 = statusCode err2 →
  error_handler f penv now url err1 = error_handler f penv now url err2 ∧
  ∀ resp, error_handler f penv now url err1 = Some resp →
          has_field "stack" (body resp) = false.
Proof.
  intros Hdev Hcode. unfold error_handler, status_or_500.
  rewrite Hdev, Hcode. split; [done|].
  intros resp. destruct f; intros [= <-]; try done.
  unfold respond. destruct (_ && _); [|done]. simpl. by destruct (bodiless _).
Qed.

Lemma error_details_not_disclosed_witness :
  let penv := {| NODE_ENV := Some "production" |} in
  let err1 := {| message := "E11000 duplicate key"; stack := Some "at save";
                 err_status := None; statusCode := None |} in
  let err2 := {| message := "boom"; stack := None;
                 err_status := None; statusCode := None |} in
  error_handler part_000 penv "2025-01-01T00:00:00.000Z" "/api/v1/rooms" err1 =
    error_handler part_000 penv "2025-01-01T00:00:00.000Z" "/api/v1/rooms" err2 ∧
  ∀ resp,
    error_handler part_000 penv "2025-01-01T00:00:00.000Z" "/api/v1/rooms" err1
      = Some resp →
    has_field "stack" (body resp) = false.
Proof.
  apply (error_details_not_disclosed part_000 {| NODE_ENV := Some "production" |}).
  - reflexivity.
  - reflexivity.
Defined.

(** In development mode the handlers of [part_000] and [part_002] answer
    with the message of the error, and [part_000] adds its stack. *)
Lemma error_details_in_development now url err :
  let penv := {| NODE_ENV := Some "development" |} in
  error_handler part_002 penv now url err =
    Some {| status := 500;
            body := Json (Js.Obj [("error", Js.Str (message err))]) |} ∧
  error_handler part_000 penv now url err =
    Some (respond (status_or_500 err)
            (Js.Obj [("timestamp", Js.Str now);
                     ("path", Js.Str url);
                     ("message", Js.Str (message err));
                     ("stack", stack_value err)])).
Proof. done. Qed.

(** A status the response cannot carry: the handler of [part_000] throws
    and Express answers 500 with its own page. *)
Example error_status_out_of_range :
  let err := {| message := "boom"; stack := None;
                err_status := None; statusCode := Some 42%nat |} in
  status_or_500 err = 42%nat ∧
  error_handler part_000 {| NODE_ENV := None |} "2025-01-01T00:00:00.000Z" "/" err =
    Some {| status := 500; body := LibraryDefault |}.
Proof. vm_compute. done. Qed.

(** A status that carries no body: the handler of [part_000] answers with
    the status alone. *)
Example error_status_without_body :
  let err := {| message := "boom"; stack := None;
                err_status := None; statusCode := Some 204%nat |} in
  error_handler part_000 {| NODE_ENV := None |} "2025-01-01T00:00:00.000Z" "/" err =
    Some {| status := 204; body := NoBody |}.
Proof. vm_compute. done. Qed.

(** *** The database connection *)

Lemma connectWithRetry_failures f n outcomes :
  retries f = true →
  connectWithRetry f (replicate n false ++ outcomes) =
  concat (replicate n [MongooseConnect; SetTimeout 5000]) ++
  connectWithRetry f outcomes.
Proof.
  intros Hf. induction n as [|n IH]; simpl; [done|]. by rewrite Hf, IH.
Qed.

Lemma attempts_failures n effects :
  attempts (concat (replicate n [MongooseConnect; SetTimeout 5000]) ++ effects) =
  (n + attempts effects)%nat.
Proof.
  induction n as [|n IH]; [done|].
  change (attempts (MongooseConnect :: SetTimeout 5000 ::
            (concat (replicate n [MongooseConnect; SetTimeout 5000]) ++ effects))
          = S (n + attempts effects)).
  rewrite <- IH. reflexivity.
Qed.

Lemma waited_failures n effects :
  waited (concat (replicate n [MongooseConnect; SetTimeout 5000]) ++ effects) =
  (5000 * n + waited effects)%nat.
Proof.
  induction n as [|n IH]; [by rewrite Nat.mul_0_r|].
  change (waited (MongooseConnect :: SetTimeout 5000 ::
            (concat (replicate n [MongooseConnect; SetTimeout 5000]) ++ effects))
          = (5000 * S n + waited effects)%nat).
  replace (5000 * S n + waited effects)%nat
    with (5000 + (5000 * n + waited effects))%nat by lia.
  rewrite <- IH. reflexivity.
Qed.

(** [connectWithRetry] tries until the database answers: after [n] failed
    attempts it has called [mongoose.connect] [n] times, each followed by a
    timer of 5000 ms, and calls it once more; after the first success it
    does nothing further. [server.js] calls [mongoose.connect] once and
    never again, however the attempt ends. *)
Theorem connectWithRetry_until_success f n rest :
  let pending := connectWithRetry f (replicate n false) in
  let connected := connectWithRetry f (replicate n false ++ true :: rest) in
  if retries f
  then connected = concat (replicate n [MongooseConnect; SetTimeout 5000])
                   ++ [MongooseConnect] ∧
       pending = connected ∧
       attempts connected = S n ∧ waited connected = (5000 * n)%nat
  else pending = [MongooseConnect] ∧ connected = [MongooseConnect].
Proof.
  intros pending connected. subst pending connected.
  destruct (retries f) eqn:Hf.
  - rewrite <- (app_nil_r (replicate n false)) at 2.
    rewrite !connectWithRetry_failures by done.
    change (connectWithRetry f (true :: rest)) with [MongooseConnect].
    change (connectWithRetry f []) with [MongooseConnect].
    rewrite attempts_failures, waited_failures.
    repeat split; [|rewrite Nat.add_0_r; done].
    change (attempts [MongooseConnect]) with 1%nat. lia.
  - destruct f; try done. by destruct n.
Qed.

(** *** The limiter over a window *)




(** One request with a body that is not JSON among the first: it is answered
    400 in [part_000] and 200 in [part_002]. *)
Example health_window_with_a_bad_body :
  let penv := {| NODE_ENV := None |} in
  let envs := fun i : nat =>
    {| now_iso := "2025-01-01T00:00:00.000Z"; uptime := (3 # 2)%Q |} in
  let bodies := fun i : nat =>
    if (i =? 1)%nat
    then Some {| message := "Unexpected token"; stack := None;
                 err_status := Some 400%nat; statusCode := Some 400%nat |}
    else None in
  health_statuses part_000 penv envs bodies 3 = [200; 400; 200]%nat ∧
  health_statuses part_002 penv envs bodies 3 = [200; 200; 200]%nat.
Proof. vm_compute. done. Qed.

End ServersFacts.

